(** * glpong: the per-frame simulation of [main.cpp] and what surrounds it

    A shallow embedding of michaelg29/glpong (the variant with paddle
    collisions).  First the physics part of the render loop: input
    processing, the collision-cooldown counter, wall collisions, scoring,
    paddle collisions and the explicit Euler integration.  Then the
    functions around it: the projection matrix, the circle model of the
    ball, the buffers that [main] makes, and the shader functions.

    Numbers are modelled as the program has them:
    - [float] is IEEE-754 binary32 and [double] is binary64, both through the
      executable specification [SpecFloat] of the standard library
      (round to nearest, ties to even).  An expression on [float]s is
      evaluated in binary32, one that mixes [float] and [double] (the
      products with [dt] and with the literal [1.05]) in binary64, and an
      [int] or [unsigned int] operand is converted first;
    - [unsigned int] is a [Z] in [0, 2^32) with the wrap-around written out.

    [std::abs] on a [float] is the floating-point overload.  The functions
    [atanf], [cosf] and [sinf] of the C library are parameters of the
    circle model.  The shader functions are pieces of code that make calls
    to the file system, the console and OpenGL, answered by an
    environment.  Drawing and window handling are not modelled, nor is the
    Escape key, which only ends the loop: a run is the list of the frames
    that the loop executes. *)

From Stdlib Require Import Strings.String.
From Stdlib Require Import ZArith Bool List Lia.
From Stdlib Require Import Floats.SpecFloat.
Import ListNotations.

Local Open Scope Z_scope.

(** ** Floating-point layer *)

Module F32.
Definition prec : Z := 24.
Definition emax : Z := 128.

Definition add : spec_float -> spec_float -> spec_float := SFadd prec emax.
Definition sub : spec_float -> spec_float -> spec_float := SFsub prec emax.
Definition mul : spec_float -> spec_float -> spec_float := SFmul prec emax.
Definition div : spec_float -> spec_float -> spec_float := SFdiv prec emax.
Definition opp : spec_float -> spec_float := SFopp.
Definition abs : spec_float -> spec_float := SFabs.

(** C++ comparisons; every comparison with a NaN is false. *)
Definition ltb : spec_float -> spec_float -> bool := SFltb.
Definition leb : spec_float -> spec_float -> bool := SFleb.
Definition gtb (a b : spec_float) : bool := SFltb b a.
Definition geb (a b : spec_float) : bool := SFleb b a.

(** Conversion of an integer ([int] or [unsigned int]) to [float]. *)
Definition of_Z (n : Z) : spec_float := binary_normalize prec emax n 0 false.

Definition valid (a : spec_float) : bool := valid_binary prec emax a.
End F32.

Module F64.
Definition prec : Z := 53.
Definition emax : Z := 1024.

Definition add : spec_float -> spec_float -> spec_float := SFadd prec emax.
Definition mul : spec_float -> spec_float -> spec_float := SFmul prec emax.
Definition div : spec_float -> spec_float -> spec_float := SFdiv prec emax.
Definition leb : spec_float -> spec_float -> bool := SFleb.
Definition of_Z (n : Z) : spec_float := binary_normalize prec emax n 0 false.
Definition valid (a : spec_float) : bool := valid_binary prec emax a.
End F64.

Definition float := spec_float.
Definition double := spec_float.

(** Promotion [float -> double] (exact) and the rounding conversion
    [double -> float] done by an assignment to a [float] lvalue. *)
Definition to_double (a : float) : double :=
  match a with
  | S754_finite s m e =>
      binary_normalize F64.prec F64.emax (cond_Zopp s (Zpos m)) e s
  | _ => a
  end.

Definition to_float (a : double) : float :=
  match a with
  | S754_finite s m e =>
      binary_normalize F32.prec F32.emax (cond_Zopp s (Zpos m)) e s
  | _ => a
  end.

Definition is_nan (a : spec_float) : bool :=
  match a with S754_nan => true | _ => false end.

Definition is_finite (a : spec_float) : bool :=
  match a with S754_zero _ | S754_finite _ _ _ => true | _ => false end.

Definition is_zero (a : spec_float) : bool :=
  match a with S754_zero _ => true | _ => false end.

(** ** Unsigned 32-bit integers *)

Definition uint_mod : Z := 2 ^ 32.
Definition to_uint (n : Z) : Z := n mod uint_mod.
Definition is_uint (n : Z) : Prop := 0 <= n < uint_mod.

(** ** Settings and graphics parameters (the file-scope constants) *)

Definition paddleSpeed : float := F32.of_Z 150.
Definition paddleHeight : float := F32.of_Z 100.
Definition halfPaddleHeight : float := F32.div paddleHeight (F32.of_Z 2).
Definition paddleWidth : float := F32.of_Z 10.
Definition halfPaddleWidth : float := F32.div paddleWidth (F32.of_Z 2).
Definition ballDiameter : float := F32.of_Z 16.
Definition ballRadius : float := F32.div ballDiameter (F32.of_Z 2).
Definition offset : float := ballRadius.
Definition paddleBoundary : float := F32.add halfPaddleHeight offset.

(** [unsigned int framesThreshold = 10;] and the value that
    [unsigned int framesSinceLastCollision = -1;] stores. *)
Definition framesThreshold : Z := 10.
Definition noCollisionYet : Z := to_uint (-1).

(** The literals [1.05] (a [double]) and [0.3f] (a [float]): the nearest
    representable numbers, obtained by a correctly rounded division. *)
Definition amplification : double := F64.div (F64.of_Z 105) (F64.of_Z 100).
Definition k : float := F32.div (F32.of_Z 3) (F32.of_Z 10).

(** ** Data model *)

Record vec2 := { x : float; y : float }.

(** The mutable globals of the program together with the two locals of
    [main] that live across frames.  The two-element arrays are pairs,
    read with [sel]. *)
Record State := {
  scrWidth : Z;
  scrHeight : Z;
  paddleOffsets : vec2 * vec2;
  ballOffset : vec2;
  paddleVelocities : float * float;
  initBallVelocity : vec2;
  ballVelocity : vec2;
  framesSinceLastCollision : Z
}.

Definition sel {A : Type} (a : A * A) (i : Z) : A :=
  if i =? 0 then fst a else snd a.

(** What one iteration of the render loop reads from the outside: the keys
    polled by [processInput], the elapsed time, and the size reported to
    [framebufferSizeCallback] if the window was resized during
    [glfwPollEvents]. *)
Record Input := {
  keyW : bool;
  keyS : bool;
  keyUp : bool;
  keyDown : bool;
  dt : double;
  resized : option (Z * Z)
}.

Definition set_paddles (s : State) (po : vec2 * vec2) (pv : float * float) : State :=
  {| scrWidth := scrWidth s; scrHeight := scrHeight s;
     paddleOffsets := po; ballOffset := ballOffset s;
     paddleVelocities := pv; initBallVelocity := initBallVelocity s;
     ballVelocity := ballVelocity s;
     framesSinceLastCollision := framesSinceLastCollision s |}.

Definition set_ball (s : State) (bo bv : vec2) : State :=
  {| scrWidth := scrWidth s; scrHeight := scrHeight s;
     paddleOffsets := paddleOffsets s; ballOffset := bo;
     paddleVelocities := paddleVelocities s;
     initBallVelocity := initBallVelocity s;
     ballVelocity := bv;
     framesSinceLastCollision := framesSinceLastCollision s |}.

Definition set_frames (s : State) (n : Z) : State :=
  {| scrWidth := scrWidth s; scrHeight := scrHeight s;
     paddleOffsets := paddleOffsets s; ballOffset := ballOffset s;
     paddleVelocities := paddleVelocities s;
     initBallVelocity := initBallVelocity s;
     ballVelocity := ballVelocity s;
     framesSinceLastCollision := n |}.

(** ** [processInput] *)

(** The upper and lower limit of a paddle centre:
    [scrHeight - paddleBoundary] and [paddleBoundary]. *)
Definition upperLimit (s : State) : float :=
  F32.sub (F32.of_Z (scrHeight s)) paddleBoundary.
Definition lowerLimit : float := paddleBoundary.

(** One "key pressed" block on a paddle, as a transformer of the pair
    (position.y, velocity). *)
Definition pressUp (lim : float) (p : float * float) : float * float :=
  if F32.ltb (fst p) lim then (fst p, paddleSpeed) else (lim, snd p).

Definition pressDown (p : float * float) : float * float :=
  if F32.gtb (fst p) lowerLimit then (fst p, F32.opp paddleSpeed)
  else (lowerLimit, snd p).

Definition movePaddle (up down : bool) (lim : float) (y0 : float) : float * float :=
  let p0 := (y0, F32.of_Z 0) in
  let p1 := if up then pressUp lim p0 else p0 in
  if down then pressDown p1 else p1.

Definition processInput (i : Input) (s : State) : State :=
  let lim := upperLimit s in
  let l := movePaddle (keyW i) (keyS i) lim (y (fst (paddleOffsets s))) in
  let r := movePaddle (keyUp i) (keyDown i) lim (y (snd (paddleOffsets s))) in
  set_paddles s
    ({| x := x (fst (paddleOffsets s)); y := fst l |},
     {| x := x (snd (paddleOffsets s)); y := fst r |})
    (snd l, snd r).

(** ** The body of the render loop, in source order *)

(** [if (framesSinceLastCollision != -1) framesSinceLastCollision++;] *)
Definition countFrame (s : State) : State :=
  if negb (framesSinceLastCollision s =? noCollisionYet)
  then set_frames s (to_uint (framesSinceLastCollision s + 1))
  else s.

(** [x *= -1] on a [float]: the [int] is converted and multiplied. *)
Definition negate (a : float) : float := F32.mul a (F32.of_Z (-1)).

Definition flipX (v : vec2) : vec2 := {| x := negate (x v); y := y v |}.
Definition flipY (v : vec2) : vec2 := {| x := x v; y := negate (y v) |}.

(** Wall collisions: floor and ceiling. *)
Definition hitsWall (s : State) : bool :=
  F32.leb (F32.sub (y (ballOffset s)) ballRadius) (F32.of_Z 0)
  || F32.geb (F32.add (y (ballOffset s)) ballRadius) (F32.of_Z (scrHeight s)).

Definition wallCollisions (s : State) : State :=
  if hitsWall s then set_ball s (ballOffset s) (flipY (ballVelocity s)) else s.

(** The local [unsigned char reset]: 0 no point, 1 right player point,
    2 left player point. *)
Definition reset (s : State) : Z :=
  if F32.leb (F32.sub (x (ballOffset s)) ballRadius) (F32.of_Z 0) then 1
  else if F32.geb (F32.add (x (ballOffset s)) ballRadius) (F32.of_Z (scrWidth s)) then 2
  else 0.

Definition screenCenter (s : State) : vec2 :=
  {| x := F32.div (F32.of_Z (scrWidth s)) (F32.of_Z 2);
     y := F32.div (F32.of_Z (scrHeight s)) (F32.of_Z 2) |}.

Definition scoring (s : State) : State :=
  let reset := reset s in
  if negb (reset =? 0) then
    set_ball s (screenCenter s)
      {| x := if reset =? 1 then x (initBallVelocity s)
              else F32.opp (x (initBallVelocity s));
         y := y (initBallVelocity s) |}
  else s.

(** Paddle collisions.  [eligible] is the guard of the block, [candidate]
    the index [i], [distance] the vector of absolute differences. *)
Definition eligible (s : State) : bool :=
  (framesSinceLastCollision s >=? framesThreshold)
  || (framesSinceLastCollision s =? noCollisionYet).

Definition candidate (s : State) : Z :=
  let i := 0 in
  if F32.gtb (x (ballOffset s)) (F32.div (F32.of_Z (scrHeight s)) (F32.of_Z 2))
  then i + 1 else i.

Definition distance (s : State) (i : Z) : vec2 :=
  {| x := F32.abs (F32.sub (x (ballOffset s)) (x (sel (paddleOffsets s) i)));
     y := F32.abs (F32.sub (y (ballOffset s)) (y (sel (paddleOffsets s) i))) |}.

Definition signedDifference (s : State) (i : Z) : float :=
  let d := F32.sub (x (sel (paddleOffsets s) i)) (x (ballOffset s)) in
  if i =? 0 then negate d else d.

Definition paddleCollisions (s : State) : State :=
  if eligible s then
    let i := candidate s in
    let distance := distance s i in
    if F32.leb (x distance) (F32.add halfPaddleWidth ballRadius)
       && F32.leb (y distance) (F32.add halfPaddleHeight ballRadius)
    then
      let collision := false in
      let v := ballVelocity s in
      let '(collision, v) :=
        if F32.leb (x distance) halfPaddleWidth
           && F32.geb (x distance) (F32.sub halfPaddleWidth ballRadius)
        then (true, flipX v)
        else if F32.leb (y distance) halfPaddleHeight
                && F32.geb (y distance) (F32.sub halfPaddleHeight ballRadius)
        then (true, flipY v)
        else (collision, v) in
      let '(collision, v) :=
        if F32.leb
             (F32.add
                (F32.mul (F32.sub (x distance) halfPaddleWidth)
                         (F32.sub (x distance) halfPaddleWidth))
                (F32.mul (F32.sub (y distance) halfPaddleHeight)
                         (F32.sub (y distance) halfPaddleHeight)))
             (F32.mul ballRadius ballRadius)
           && negb collision
        then
          let signedDifference := signedDifference s i in
          if F32.leb (F32.sub (y distance) halfPaddleHeight)
                     (F32.sub signedDifference halfPaddleWidth)
          then (true, flipX v)
          else (true, flipY v)
        else (collision, v) in
      if collision then
        set_frames
          (set_ball s (ballOffset s)
             {| x := to_float (F64.mul (to_double (x v)) amplification);
                y := F32.add (y v) (F32.mul k (sel (paddleVelocities s) i)) |})
          0
      else set_ball s (ballOffset s) v
    else s
  else s.

(** [a += b * dt] with [a], [b] of type [float] and [dt] a [double]. *)
Definition advance (a b : float) (dt : double) : float :=
  to_float (F64.add (to_double a) (F64.mul (to_double b) dt)).

Definition updatePositions (dt : double) (s : State) : State :=
  let po := paddleOffsets s in
  let pv := paddleVelocities s in
  set_ball
    (set_paddles s
       ({| x := x (fst po); y := advance (y (fst po)) (fst pv) dt |},
        {| x := x (snd po); y := advance (y (snd po)) (snd pv) dt |})
       pv)
    {| x := advance (x (ballOffset s)) (x (ballVelocity s)) dt;
       y := advance (y (ballOffset s)) (y (ballVelocity s)) dt |}
    (ballVelocity s).

(** [framebufferSizeCallback], run from [glfwPollEvents] in [newFrame]. *)
Definition framebufferSizeCallback (width height : Z) (s : State) : State :=
  {| scrWidth := to_uint width; scrHeight := to_uint height;
     paddleOffsets :=
       (fst (paddleOffsets s),
        {| x := F32.sub (F32.of_Z width) (F32.of_Z 35);
           y := y (snd (paddleOffsets s)) |});
     ballOffset := ballOffset s;
     paddleVelocities := paddleVelocities s;
     initBallVelocity := initBallVelocity s;
     ballVelocity := ballVelocity s;
     framesSinceLastCollision := framesSinceLastCollision s |}.

Definition newFrame (i : Input) (s : State) : State :=
  match resized i with
  | Some (w, h) => framebufferSizeCallback w h s
  | None => s
  end.

(** The physics of one iteration of [while (!glfwWindowShouldClose(window))]. *)
Definition frame (i : Input) (s : State) : State :=
  let s := processInput i s in
  let s := countFrame s in
  let s := wallCollisions s in
  let s := scoring s in
  let s := paddleCollisions s in
  let s := updatePositions (dt i) s in
  newFrame i s.

Definition renderLoop (ins : list Input) (s : State) : State :=
  fold_left (fun s i => frame i s) ins s.

(** The state on entry to the render loop. *)
Definition initialState : State :=
  let scrWidth := 800 in
  let scrHeight := 600 in
  {| scrWidth := scrWidth; scrHeight := scrHeight;
     paddleOffsets :=
       ({| x := F32.of_Z 35; y := F32.div (F32.of_Z scrHeight) (F32.of_Z 2) |},
        {| x := F32.sub (F32.of_Z scrWidth) (F32.of_Z 35);
           y := F32.div (F32.of_Z scrHeight) (F32.of_Z 2) |});
     ballOffset :=
       {| x := F32.div (F32.of_Z scrWidth) (F32.of_Z 2);
          y := F32.div (F32.of_Z scrHeight) (F32.of_Z 2) |};
     paddleVelocities := (F32.of_Z 0, F32.of_Z 0);
     initBallVelocity := {| x := F32.of_Z 150; y := F32.of_Z 150 |};
     ballVelocity := {| x := F32.of_Z 150; y := F32.of_Z 150 |};
     framesSinceLastCollision := noCollisionYet |}.

Definition idle (t : double) : Input :=
  {| keyW := false; keyS := false; keyUp := false; keyDown := false;
     dt := t; resized := None |}.

(** ** The paddle check, by cases

    [paddleCollisions] above follows the statements of the source, with its
    mutable flag [collision].  The same decision is named here case by case;
    [paddleCollisions_classify] shows that both agree. *)

Inductive Hit :=
| NoHit
| LengthHit          (* first test: "length collision", flips x *)
| WidthHit           (* second test: "width collision", flips y *)
| CornerAsLength     (* corner test, treated as length collision *)
| CornerAsWidth.     (* corner test, treated as width collision *)

Definition inReach (d : vec2) : bool :=
  F32.leb (x d) (F32.add halfPaddleWidth ballRadius)
  && F32.leb (y d) (F32.add halfPaddleHeight ballRadius).

Definition onLength (d : vec2) : bool :=
  F32.leb (x d) halfPaddleWidth
  && F32.geb (x d) (F32.sub halfPaddleWidth ballRadius).

Definition onWidth (d : vec2) : bool :=
  F32.leb (y d) halfPaddleHeight
  && F32.geb (y d) (F32.sub halfPaddleHeight ballRadius).

Definition nearCorner (d : vec2) : bool :=
  F32.leb
    (F32.add
       (F32.mul (F32.sub (x d) halfPaddleWidth) (F32.sub (x d) halfPaddleWidth))
       (F32.mul (F32.sub (y d) halfPaddleHeight) (F32.sub (y d) halfPaddleHeight)))
    (F32.mul ballRadius ballRadius).

Definition closerToLength (d : vec2) (sd : float) : bool :=
  F32.leb (F32.sub (y d) halfPaddleHeight) (F32.sub sd halfPaddleWidth).

Definition classify (s : State) : Hit :=
  let i := candidate s in
  let d := distance s i in
  if inReach d then
    if onLength d then LengthHit
    else if onWidth d then WidthHit
    else if nearCorner d then
      if closerToLength d (signedDifference s i) then CornerAsLength
      else CornerAsWidth
    else NoHit
  else NoHit.

Definition flipped (h : Hit) (v : vec2) : vec2 :=
  match h with
  | NoHit => v
  | LengthHit | CornerAsLength => flipX v
  | WidthHit | CornerAsWidth => flipY v
  end.

(** The part of the response common to every detected collision. *)
Definition amplify (a : float) : float :=
  to_float (F64.mul (to_double a) amplification).

Definition bounce (s : State) (v : vec2) : State :=
  set_frames
    (set_ball s (ballOffset s)
       {| x := amplify (x v);
          y := F32.add (y v) (F32.mul k (sel (paddleVelocities s) (candidate s))) |})
    0.

Definition respond (h : Hit) (s : State) : State :=
  match h with
  | NoHit => s
  | _ => bounce s (flipped h (ballVelocity s))
  end.

(** A paddle collision is detected in state [s] (the state in which the
    paddle block of the frame starts). *)
Definition collides (s : State) : bool :=
  eligible s && match classify s with NoHit => false | _ => true end.

(** The state in which the paddle block of a frame starts, and whether the
    frame detects a paddle collision. *)
Definition beforePaddles (i : Input) (s : State) : State :=
  scoring (wallCollisions (countFrame (processInput i s))).

Definition collisionInFrame (i : Input) (s : State) : bool :=
  collides (beforePaddles i s).

(** ** The projection matrix *)

(** The matrix [mat] that [setOrthographicProjection] builds and hands to
    [glUniformMatrix4fv], row by row as the initialiser lists it. *)
Definition setOrthographicProjection
    (left right bottom top near far : float) : list (list float) :=
  [ [ F32.div (F32.of_Z 2) (F32.sub right left);
      F32.of_Z 0; F32.of_Z 0; F32.of_Z 0 ];
    [ F32.of_Z 0;
      F32.div (F32.of_Z 2) (F32.sub top bottom);
      F32.of_Z 0; F32.of_Z 0 ];
    [ F32.of_Z 0; F32.of_Z 0;
      F32.div (F32.opp (F32.of_Z 2)) (F32.sub far near);
      F32.of_Z 0 ];
    [ F32.div (F32.opp (F32.add right left)) (F32.sub right left);
      F32.div (F32.opp (F32.add top bottom)) (F32.sub top bottom);
      F32.div (F32.opp (F32.add far near)) (F32.sub far near);
      F32.of_Z 1 ] ].

(** The call
    [setOrthographicProjection(shaderProgram, 0, width, 0, height, 0.0f, 1.0f)]
    of [framebufferSizeCallback], and of [main] with [scrWidth] and
    [scrHeight]: the integer arguments are converted to [float]. *)
Definition windowProjection (width height : Z) : list (list float) :=
  setOrthographicProjection
    (F32.of_Z 0) (F32.of_Z width) (F32.of_Z 0) (F32.of_Z height)
    (F32.of_Z 0) (F32.of_Z 1).

(** ** Arrays *)

(** How a piece of code that works on arrays ends: normally, by an access
    outside an array (undefined behaviour in C++), or, for a loop that is
    run with fuel, by the lack of it. *)
Inductive Outcome (A : Type) : Type :=
| Done (a : A)
| OutOfBounds (index : Z) (size : nat)
| OutOfFuel.

Arguments Done {A} a.
Arguments OutOfBounds {A} index size.
Arguments OutOfFuel {A}.

Definition bind {A B : Type} (c : Outcome A) (f : A -> Outcome B) : Outcome B :=
  match c with
  | Done a => f a
  | OutOfBounds i n => OutOfBounds i n
  | OutOfFuel => OutOfFuel
  end.

Notation "x <- c ;; f" := (bind c (fun x => f))
  (at level 61, c at next level, right associativity).

(** The cells of [new T[n]] hold no value until they are written. *)
Definition array (A : Type) : Type := list (option A).

Definition newArray {A : Type} (n : Z) : array A := repeat None (Z.to_nat n).

Fixpoint update {A : Type} (l : list A) (n : nat) (v : A) : list A :=
  match l, n with
  | [], _ => []
  | _ :: t, O => v :: t
  | h :: t, S n => h :: update t n v
  end.

(** [a[i] = v] for an unsigned index [i]. *)
Definition store {A : Type} (a : array A) (i : Z) (v : A) : Outcome (array A) :=
  if (0 <=? i) && (i <? Z.of_nat (length a))
  then Done (update a (Z.to_nat i) (Some v))
  else OutOfBounds i (length a).

(** The value in cell [i] of an array, if the cell exists and has been
    written. *)
Definition cell {A : Type} (a : array A) (i : Z) : option A :=
  match nth_error a (Z.to_nat i) with
  | Some c => c
  | None => None
  end.

(** Arithmetic on [unsigned int]. *)
Definition uadd (a b : Z) : Z := to_uint (a + b).
Definition usub (a b : Z) : Z := to_uint (a - b).
Definition umul (a b : Z) : Z := to_uint (a * b).

(** ** [gen2DCircleArray] *)

Section Circle.

(** The functions of the C library that the circle model calls. *)
Variables atanf cosf sinf : float -> float.

(** The [for] loop, from the test [i < noTriangles] on. *)
Fixpoint circleLoop (fuel : nat) (noTriangles : Z) (radius pi : float)
    (i : Z) (theta : float) (vertices : array float) (indices : array Z)
    : Outcome (array float * array Z) :=
  match fuel with
  | O => OutOfFuel
  | S fuel =>
      if i <? noTriangles then
        vertices <- store vertices (uadd (umul (uadd i 1) 2) 0)
                      (F32.mul radius (cosf theta)) ;;
        vertices <- store vertices (uadd (umul (uadd i 1) 2) 1)
                      (F32.mul radius (sinf theta)) ;;
        indices <- store indices (uadd (umul i 3) 0) 0 ;;
        indices <- store indices (uadd (umul i 3) 1) (uadd i 1) ;;
        indices <- store indices (uadd (umul i 3) 2) (uadd i 2) ;;
        let theta :=
          F32.add theta
            (F32.div (F32.mul (F32.of_Z 2) pi) (F32.of_Z noTriangles)) in
        circleLoop fuel noTriangles radius pi (uadd i 1) theta vertices indices
      else Done (vertices, indices)
  end.

(** The two arrays that the function hands back through its reference
    parameters.  The local [noTrianglesF] is never read and is left out;
    the loop gets one unit of fuel per turn and one for the last test. *)
Definition gen2DCircleArray (noTriangles : Z) (radius : float)
    : Outcome (array float * array Z) :=
  let vertices := newArray (umul (uadd noTriangles 1) 2) in
  vertices <- store vertices 0 (F32.of_Z 0) ;;
  vertices <- store vertices 1 (F32.of_Z 0) ;;
  let indices := newArray (umul noTriangles 3) in
  let pi := F32.mul (F32.of_Z 4) (atanf (F32.of_Z 1)) in
  let theta := F32.of_Z 0 in
  r <- circleLoop (S (Z.to_nat noTriangles)) noTriangles radius pi
         0 theta vertices indices ;;
  indices <- store (snd r) (uadd (umul (usub noTriangles 1) 3) 2) 1 ;;
  Done (fst r, indices).

End Circle.

(** ** Buffer objects *)

(** [genBufferObject<T>(bo, type, noElements, data, usage)]: the cells that
    [glBufferData] copies, [noElements * sizeof(T)] bytes from the start of
    [data].  Reading past the end of the array is out of bounds; the index
    reported is that of the first cell outside. *)
Definition genBufferObject {T : Type} (noElements : Z) (data : array T)
    : Outcome (array T) :=
  if noElements <=? Z.of_nat (length data)
  then Done (firstn (Z.to_nat noElements) data)
  else OutOfBounds (Z.of_nat (length data)) (length data).

(** The literal [0.5f]. *)
Definition half : float := F32.div (F32.of_Z 1) (F32.of_Z 2).

(** The vertex, index and size data of the paddles in [main], and the four
    buffers made from them. *)
Definition paddleVertices : array float :=
  map Some [ half; half;
             F32.opp half; half;
             F32.opp half; F32.opp half;
             half; F32.opp half ].

Definition paddleIndices : array Z := map Some [0; 1; 2; 2; 3; 0].

Definition paddleSizes : array vec2 :=
  map Some [ {| x := paddleWidth; y := paddleHeight |} ].

Definition paddleBuffers (s : State)
    : Outcome (array float * array vec2 * array vec2 * array Z) :=
  posVBO <- genBufferObject (2 * 4) paddleVertices ;;
  offsetVBO <- genBufferObject 2
                 (map Some [fst (paddleOffsets s); snd (paddleOffsets s)]) ;;
  sizeVBO <- genBufferObject 1 paddleSizes ;;
  EBO <- genBufferObject (2 * 4) paddleIndices ;;
  Done (posVBO, offsetVBO, sizeVBO, EBO).

Definition ballSizes : array vec2 :=
  map Some [ {| x := ballDiameter; y := ballDiameter |} ].

Section Ball.
Variables atanf cosf sinf : float -> float.

(** The ball in [main]: the circle model, then the four buffers; [main]
    has [noTriangles = 50]. *)
Definition ballBuffers (s : State) (noTriangles : Z)
    : Outcome (array float * array vec2 * array vec2 * array Z) :=
  r <- gen2DCircleArray atanf cosf sinf noTriangles half ;;
  posVBO <- genBufferObject (umul 2 (uadd noTriangles 1)) (fst r) ;;
  offsetVBO <- genBufferObject 1 [Some (ballOffset s)] ;;
  sizeVBO <- genBufferObject 1 ballSizes ;;
  EBO <- genBufferObject (umul 3 noTriangles) (snd r) ;;
  Done (posVBO, offsetVBO, sizeVBO, EBO).

End Ball.

(** ** Shaders *)

(** Conversion of an [unsigned int] (a [GLuint]) to [int]. *)
Definition to_int (n : Z) : Z :=
  let m := to_uint n in if m <? 2 ^ 31 then m else m - 2 ^ 32.

Inductive ShaderType := GL_VERTEX_SHADER | GL_FRAGMENT_SHADER.
Inductive StatusName := GL_COMPILE_STATUS | GL_LINK_STATUS.

(** The calls that the shader functions make to the file system, to the
    console and to OpenGL, each with the type of what comes back from it:
    the contents of the file if it could be opened, the name of a new
    object, the value found in [success] or in [infoLog] after the call.
    [Print] is one line written to [std::cout]. *)
Inductive Call : Type -> Type :=
| OpenFile (filename : string) : Call (option string)
| CloseFile : Call unit
| Print (text : string) : Call unit
| glCreateShader (type : ShaderType) : Call Z
| glShaderSource (shader : Z) (source : string) : Call unit
| glCompileShader (shader : Z) : Call unit
| glGetShaderiv (shader : Z) (pname : StatusName) : Call Z
| glGetShaderInfoLog (shader : Z) : Call string
| glCreateProgram : Call Z
| glAttachShader (program shader : Z) : Call unit
| glLinkProgram (program : Z) : Call unit
| glDeleteShader (shader : Z) : Call unit.

(** A piece of code that makes such calls. *)
Inductive Prog (A : Type) : Type :=
| Ret (a : A)
| Vis {R : Type} (c : Call R) (k : R -> Prog A).

Arguments Ret {A} a.
Arguments Vis {A R} c k.

Fixpoint seq {A B : Type} (p : Prog A) (f : A -> Prog B) : Prog B :=
  match p with
  | Ret a => f a
  | Vis c k => Vis c (fun r => seq (k r) f)
  end.

Definition call {R : Type} (c : Call R) : Prog R := Vis c Ret.

Notation "x <~ p ;; q" := (seq p (fun x => q))
  (at level 61, p at next level, right associativity).
Notation "p ;;; q" := (seq p (fun _ => q))
  (at level 61, right associativity).

Definition readFile (filename : string) : Prog string :=
  let ret := EmptyString in
  file <~ call (OpenFile filename) ;;
  ret <~ match file with
         | Some contents => Ret contents
         | None => call (Print (String.append "Could not open " filename)) ;;;
                   Ret ret
         end ;;
  call CloseFile ;;;
  Ret ret.

Definition genShader (filepath : string) (type : ShaderType) : Prog Z :=
  shaderSrc <~ readFile filepath ;;
  shaderObj <~ call (glCreateShader type) ;;
  let shaderObj := to_int shaderObj in
  call (glShaderSource (to_uint shaderObj) shaderSrc) ;;;
  call (glCompileShader (to_uint shaderObj)) ;;;
  success <~ call (glGetShaderiv (to_uint shaderObj) GL_COMPILE_STATUS) ;;
  if success =? 0 then
    infoLog <~ call (glGetShaderInfoLog (to_uint shaderObj)) ;;
    call (Print (String.append "Error in shader compilation: " infoLog)) ;;;
    Ret (-1)
  else Ret shaderObj.

(** As in the source, the link status is asked for with [glGetShaderiv] and
    the log with [glGetShaderInfoLog], given the name of the program. *)
Definition genShaderProgram (vertexShaderPath fragmentShaderPath : string)
    : Prog Z :=
  shaderProgram <~ call glCreateProgram ;;
  let shaderProgram := to_int shaderProgram in
  vertexShader <~ genShader vertexShaderPath GL_VERTEX_SHADER ;;
  fragmentShader <~ genShader fragmentShaderPath GL_FRAGMENT_SHADER ;;
  if (vertexShader =? -1) || (fragmentShader =? -1) then Ret (-1)
  else
    call (glAttachShader (to_uint shaderProgram) (to_uint vertexShader)) ;;;
    call (glAttachShader (to_uint shaderProgram) (to_uint fragmentShader)) ;;;
    call (glLinkProgram (to_uint shaderProgram)) ;;;
    success <~ call (glGetShaderiv (to_uint shaderProgram) GL_LINK_STATUS) ;;
    if success =? 0 then
      infoLog <~ call (glGetShaderInfoLog (to_uint shaderProgram)) ;;
      call (Print (String.append "Error in shader linking: " infoLog)) ;;;
      Ret (-1)
    else
      call (glDeleteShader (to_uint vertexShader)) ;;;
      call (glDeleteShader (to_uint fragmentShader)) ;;;
      Ret shaderProgram.

(** ** Definitions used in the statements *)

(** *** Runs and the cooldown counter *)

(** The score event of a frame, read off the local [reset]. *)
Inductive Scorer := RightPlayer | LeftPlayer.

Definition scoreEvent (s : State) : option Scorer :=
  let reset := reset s in
  if reset =? 1 then Some RightPlayer
  else if reset =? 2 then Some LeftPlayer
  else None.


(** The counter update of [countFrame] on the counter value. *)
Definition tick (c : Z) : Z :=
  if negb (c =? noCollisionYet) then to_uint (c + 1) else c.

(** No frame of the run [ins] from [s] detects a paddle collision. *)
Fixpoint quiet (ins : list Input) (s : State) : bool :=
  match ins with
  | [] => true
  | i :: ins => negb (collisionInFrame i s) && quiet ins (frame i s)
  end.

(** States reachable from the initial state by frames of the render loop. *)
Inductive Reachable : State -> Prop :=
| reach_init : Reachable initialState
| reach_frame (i : Input) (s : State) : Reachable s -> Reachable (frame i s).

(** *** The order of phases as the claim C2 has it *)


(** *** The boundary clamp *)

(** What the key blocks of [processInput] leave for one paddle, as a
    relation between the position before and the pair (position, velocity)
    after; [lim] is [scrHeight - paddleBoundary]. *)
Definition clamped (lim : float) (up down : bool) (y0 : float)
    (p : float * float) : Prop :=
  match up, down with
  | false, false => p = (y0, F32.of_Z 0)
  | true, false =>
      F32.leb (fst p) lim = true
      /\ if F32.ltb y0 lim then p = (y0, paddleSpeed) else p = (lim, F32.of_Z 0)
  | false, true =>
      F32.geb (fst p) paddleBoundary = true
      /\ if F32.gtb y0 paddleBoundary then p = (y0, F32.opp paddleSpeed)
         else p = (paddleBoundary, F32.of_Z 0)
  | true, true =>
      let p1 := if F32.ltb y0 lim then (y0, paddleSpeed) else (lim, F32.of_Z 0) in
      F32.geb (fst p) paddleBoundary = true
      /\ if F32.gtb (fst p1) paddleBoundary then p = (fst p1, F32.opp paddleSpeed)
         else p = (paddleBoundary, snd p1)
  end.

(** A paddle found at or beyond a limit while the key towards that limit
    is the only one held ends the frame exactly at the limit. *)
Definition heldAtLimit (lim : float) (up down : bool) (y0 yEnd : float) : Prop :=
  match up, down with
  | true, false => F32.ltb y0 lim = false -> yEnd = lim
  | false, true => F32.gtb y0 paddleBoundary = false -> yEnd = paddleBoundary
  | _, _ => True
  end.

(** *** The horizontal speeds the game can reach *)

(** [ballVelocity.x] is only ever negated, amplified, or reset to
    [+-initBallVelocity.x].  The values it can take from the initial speed
    are therefore the amplifications of 150 and their opposites: a finite
    set, because the 1716th amplification overflows to infinity. *)
Fixpoint amplified (n : nat) (a : float) : list float :=
  match n with
  | O => []
  | S n => a :: amplified n (amplify a)
  end.

Definition speeds : list float := amplified 1717 (F32.of_Z 150).







(** *** Rounding *)

(** What a rounding of a positive mantissa can return: never a NaN, the
    sign it was given, a zero only below the least exponent, and a finite
    result only in canonical form. *)
Definition rounded (prec emax : Z) (sx : bool) (e : Z) (r : spec_float) : Prop :=
  match r with
  | S754_nan => False
  | S754_zero s => s = sx /\ e < emin prec emax
  | S754_infinity s => s = sx
  | S754_finite s q e' => s = sx /\ bounded prec emax q e' = true
  end.

(** *** Inputs and states of the examples *)

Definition sixteenth : double := F64.div (F64.of_Z 1) (F64.of_Z 16).

Definition idle0 : Input := idle (F64.of_Z 0).

Definition holdUp (t : double) : Input :=
  {| keyW := false; keyS := false; keyUp := true; keyDown := false;
     dt := t; resized := None |}.

Definition holdW (t : double) : Input :=
  {| keyW := true; keyS := false; keyUp := false; keyDown := false;
     dt := t; resized := None |}.

(** The ball flying untouched from the initial state, in frames of 1/16 s
    with no key held: 9.375 pixels to the right per frame, and as many up
    or down. *)
Definition untouched (n : nat) : State :=
  renderLoop (repeat (idle sixteenth) n) initialState.


(** After 42 frames the ball is across the right bound, at x = 793.75. *)
Definition pastRightBound : State := untouched 42.

(** After 43 frames the ball has been served from the centre towards the
    left and is at x = 390.625, left of the middle of the 800 x 600
    window. *)
Definition leftOfMiddle : State := untouched 43.

(** From the initial state with the up-arrow key held, frames of 1/16 s:
    the right paddle rises to its limit, the ball bounces off the ceiling,
    and after 39 frames it is inside the right paddle, at
    [(765.625, 534.375)], before any paddle collision. *)
Definition insideRightPaddle : State :=
  renderLoop (repeat (holdUp sixteenth) 39) initialState.

(** The state left by the bounce of [insideRightPaddle] in a frame of
    1/16 s, with the counter replaced by [c]: the ball has moved away from
    the paddle face, to [(755.78125, 525)]. *)
Definition parked (c : Z) : State :=
  set_frames (frame (holdUp sixteenth) insideRightPaddle) c.


(** The initial window made taller than twice its width, 800 x 1700, with
    the ball on the centre of the right paddle. *)
Definition tallWindow : State :=
  let s := framebufferSizeCallback 800 1700 initialState in
  set_ball s (snd (paddleOffsets s)) (ballVelocity s).

(** *** The circle model *)

(** The triangle fan that the ball is drawn with: triangle [j] joins the
    centre, vertex [j + 1] and the next vertex on the circle, which for the
    last triangle is vertex 1 again. *)
Definition isFan (noTriangles : Z) (indices : array Z) : Prop :=
  forall j : Z, 0 <= j < noTriangles ->
    cell indices (3 * j) = Some 0
    /\ cell indices (3 * j + 1) = Some (j + 1)
    /\ cell indices (3 * j + 2) = Some (if j =? noTriangles - 1 then 1 else j + 2).

(** Every cell of the array has been written. *)
Definition filled {A : Type} (a : array A) : Prop :=
  forall i : Z, 0 <= i < Z.of_nat (length a) -> cell a i <> None.

(** The cells written by [count] turns of the loop of [gen2DCircleArray]
    from triangle [i] on: the indices, and the vertices from angle [theta]
    on. *)
Fixpoint fan (count : nat) (i : Z) : array Z :=
  match count with
  | O => []
  | S count => Some 0 :: Some (i + 1) :: Some (i + 2) :: fan count (i + 1)
  end.

Section Ring.
Variables atanf cosf sinf : float -> float.

Fixpoint ring (radius step : float) (count : nat) (theta : float)
    : array float :=
  match count with
  | O => []
  | S count =>
      Some (F32.mul radius (cosf theta))
      :: Some (F32.mul radius (sinf theta))
      :: ring radius step count (F32.add theta step)
  end.

(** The angle at which the loop places vertex [j + 1]: the sum of [j]
    steps of [2 * pi / noTriangles], each added in [float]. *)
Definition angleStep (noTriangles : Z) : float :=
  F32.div (F32.mul (F32.of_Z 2) (F32.mul (F32.of_Z 4) (atanf (F32.of_Z 1))))
          (F32.of_Z noTriangles).

Fixpoint angle (noTriangles : Z) (j : nat) : float :=
  match j with
  | O => F32.of_Z 0
  | S j => F32.add (angle noTriangles j) (angleStep noTriangles)
  end.

(** The vertices of the circle model: the centre first, then vertex
    [j + 1] at the angle reached after [j] steps. *)
Definition isRing (noTriangles : Z) (radius : float) (vertices : array float)
    : Prop :=
  cell vertices 0 = Some (F32.of_Z 0)
  /\ cell vertices 1 = Some (F32.of_Z 0)
  /\ forall j : Z, 0 <= j < noTriangles ->
       cell vertices (2 * (j + 1))
       = Some (F32.mul radius (cosf (angle noTriangles (Z.to_nat j))))
       /\ cell vertices (2 * (j + 1) + 1)
          = Some (F32.mul radius (sinf (angle noTriangles (Z.to_nat j)))).

End Ring.

(** The circle of [main], 50 triangles of radius 0.5, run with stand-ins
    for the functions of the C library. *)
Definition exampleCircle : Outcome (array float * array Z) :=
  gen2DCircleArray (fun a => a) (fun a => a) (fun a => a) 50 half.

(** *** The window *)

(** A size that GLFW reports for the framebuffer: two [int]s that are not
    negative. *)
Definition sizeReported (i : Input) : Prop :=
  match resized i with
  | Some (w, h) => 0 <= w < 2 ^ 31 /\ 0 <= h < 2 ^ 31
  | None => True
  end.

Definition resizeTo (w h : Z) : Input :=
  {| keyW := false; keyS := false; keyUp := false; keyDown := false;
     dt := sixteenth; resized := Some (w, h) |}.

(** The window without width or height, as the framebuffer of a minimised
    window is reported, entered from the initial state. *)
Definition emptyWindow : State := framebufferSizeCallback 0 0 initialState.

(** *** Runs *)

(** The values that [processInput] gives to a paddle velocity. *)
Definition paddleVelocityValues : list float :=
  [F32.of_Z 0; paddleSpeed; F32.opp paddleSpeed].

(** The score events of the frames of a run. *)
Fixpoint scoreEvents (ins : list Input) (s : State) : list (option Scorer) :=
  match ins with
  | [] => []
  | i :: ins => scoreEvent s :: scoreEvents ins (frame i s)
  end.

(** A frame whose time step is not a number. *)
Definition lostTime : Input := idle S754_nan.

(** *** Runs of the shader functions *)

(** A call that was made, with what came back. *)
Inductive Event : Type :=
| event {R : Type} (c : Call R) (r : R).

(** The environment answers every call, knowing what happened before. *)
Definition World : Type := forall R : Type, list Event -> Call R -> R.

Fixpoint run {A : Type} (w : World) (p : Prog A) (past : list Event)
    : A * list Event :=
  match p with
  | Ret a => (a, past)
  | Vis c k => let r := w _ past c in run w (k r) (past ++ [event c r])
  end.

Definition isDelete (e : Event) : bool :=
  match e with
  | event c _ => match c with glDeleteShader _ => true | _ => false end
  end.

Definition isCompile (e : Event) : bool :=
  match e with
  | event c _ => match c with glCompileShader _ => true | _ => false end
  end.


(** ** Facts on the floating-point layer *)

(** *** Digits and shifts *)

Lemma digits_bounds (m : positive) :
  2 ^ (Zpos (digits2_pos m) - 1) <= Zpos m < 2 ^ Zpos (digits2_pos m).
Proof.
  induction m as [m IH | m IH |]; cbn [digits2_pos].
  - rewrite Pos2Z.inj_succ, (Pos2Z.inj_xI m).
    replace (Z.succ (Zpos (digits2_pos m)) - 1) with (Z.succ (Zpos (digits2_pos m) - 1)) by lia.
    rewrite !Z.pow_succ_r by lia.
    destruct IH as [IHl IHu]. revert IHl IHu.
    generalize (2 ^ (Zpos (digits2_pos m) - 1)) (2 ^ Zpos (digits2_pos m)). lia.
  - rewrite Pos2Z.inj_succ, (Pos2Z.inj_xO m).
    replace (Z.succ (Zpos (digits2_pos m)) - 1) with (Z.succ (Zpos (digits2_pos m) - 1)) by lia.
    rewrite !Z.pow_succ_r by lia.
    destruct IH as [IHl IHu]. revert IHl IHu.
    generalize (2 ^ (Zpos (digits2_pos m) - 1)) (2 ^ Zpos (digits2_pos m)). lia.
  - cbn. lia.
Qed.

Lemma digits_unique (m : positive) (d : Z) :
  2 ^ (d - 1) <= Zpos m < 2 ^ d -> Zpos (digits2_pos m) = d.
Proof.
  intros [Hl Hu]. pose proof (digits_bounds m) as [Bl Bu].
  set (c := Zpos (digits2_pos m)) in *.
  assert (0 < d).
  { destruct (Z.lt_trichotomy d 0) as [H | [H | H]]; try lia.
    - rewrite Z.pow_neg_r in Hu; lia.
    - subst d. cbn in Hu. lia. }
  destruct (Z.lt_trichotomy c d) as [H1 | [H1 | H1]]; [|exact H1|].
  - assert (2 ^ c <= 2 ^ (d - 1)) by (apply Z.pow_le_mono_r; lia). lia.
  - assert (2 ^ d <= 2 ^ (c - 1)) by (apply Z.pow_le_mono_r; lia). lia.
Qed.

Lemma digits_le (q : positive) (p : Z) :
  0 <= p -> Zpos q < 2 ^ p -> Zpos (digits2_pos q) <= p.
Proof.
  intros Hp Hq. pose proof (digits_bounds q) as [Bl _].
  destruct (Z.le_gt_cases (Zpos (digits2_pos q)) p) as [H | H]; [exact H|].
  assert (2 ^ p <= 2 ^ (Zpos (digits2_pos q) - 1)) by (apply Z.pow_le_mono_r; lia).
  lia.
Qed.

Lemma shl_value (m k : positive) : Zpos (Pos.iter xO m k) = Zpos m * 2 ^ Zpos k.
Proof.
  induction k as [|k IH] using Pos.peano_ind.
  - cbn. lia.
  - rewrite Pos.iter_succ, (Pos2Z.inj_xO (Pos.iter xO m k)), IH, Pos2Z.inj_succ, Z.pow_succ_r by lia. lia.
Qed.

Lemma digits_shl (m k : positive) :
  Zpos (digits2_pos (Pos.iter xO m k)) = Zpos (digits2_pos m) + Zpos k.
Proof.
  apply digits_unique. rewrite shl_value.
  pose proof (digits_bounds m) as [Bl Bu].
  replace (Zpos (digits2_pos m) + Zpos k - 1) with ((Zpos (digits2_pos m) - 1) + Zpos k) by lia.
  rewrite !Z.pow_add_r by lia.
  assert (0 < 2 ^ Zpos k) by (apply Z.pow_pos_nonneg; lia).
  split; nia.
Qed.

Lemma iter_pos_nat {A : Type} (f : A -> A) (p : positive) (a : A) :
  iter_pos f p a = Nat.iter (Pos.to_nat p) f a.
Proof.
  revert a. induction p as [p IH | p IH |]; intros a; cbn [iter_pos].
  - rewrite !IH.
    replace (Pos.to_nat p~1) with (Pos.to_nat p + (Pos.to_nat p + 1))%nat by lia.
    rewrite !Nat.iter_add. reflexivity.
  - rewrite !IH.
    replace (Pos.to_nat p~0) with (Pos.to_nat p + Pos.to_nat p)%nat by lia.
    rewrite Nat.iter_add. reflexivity.
  - reflexivity.
Qed.

Lemma shr_1_div (r : shr_record) : 0 <= shr_m r -> shr_m (shr_1 r) = shr_m r / 2.
Proof.
  destruct r as [m b c]. cbn [shr_m]. intros H.
  destruct m as [|[q|q|]|q]; cbn [shr_1 shr_m]; try lia.
  - reflexivity.
  - rewrite (Pos2Z.inj_xI q). apply Z.div_unique with 1; lia.
  - rewrite (Pos2Z.inj_xO q). apply Z.div_unique with 0; lia.
  - reflexivity.
Qed.

Lemma shr_iter_div (n : nat) (r : shr_record) :
  0 <= shr_m r ->
  0 <= shr_m (Nat.iter n shr_1 r)
  /\ shr_m (Nat.iter n shr_1 r) = shr_m r / 2 ^ Z.of_nat n.
Proof.
  intros H. induction n as [|n [IH0 IH]].
  - cbn. rewrite Z.div_1_r. split; [exact H | reflexivity].
  - change (Nat.iter (S n) shr_1 r) with (shr_1 (Nat.iter n shr_1 r)).
    rewrite shr_1_div by exact IH0. rewrite IH.
    rewrite Nat2Z.inj_succ, Z.pow_succ_r by lia.
    rewrite Z.div_div by (try apply Z.pow_pos_nonneg; lia).
    rewrite (Z.mul_comm 2). split; [|reflexivity].
    apply Z.div_pos; [exact H|]. assert (0 < 2 ^ Z.of_nat n) by (apply Z.pow_pos_nonneg; lia). lia.
Qed.

Lemma shr_div (r : shr_record) (e n : Z) :
  0 <= shr_m r -> 0 <= n ->
  shr_m (fst (shr r e n)) = shr_m r / 2 ^ n /\ snd (shr r e n) = e + n.
Proof.
  intros H Hn. destruct n as [|p|p]; cbn [shr fst snd]; try lia.
  - rewrite Z.div_1_r. split; [reflexivity | lia].
  - rewrite iter_pos_nat. destruct (shr_iter_div (Pos.to_nat p) r H) as [_ ->].
    rewrite positive_nat_Z. split; reflexivity.
Qed.

Lemma shr_iter_shl (n : nat) (q : positive) :
  Nat.iter n shr_1
    {| shr_m := Zpos (Nat.iter n xO q); shr_r := false; shr_s := false |}
  = {| shr_m := Zpos q; shr_r := false; shr_s := false |}.
Proof.
  induction n as [|n IH]; [reflexivity|].
  rewrite Nat.iter_succ_r.
  change (Nat.iter (S n) xO q) with (xO (Nat.iter n xO q)).
  exact IH.
Qed.

Lemma shr_record_of_loc_m (m : Z) (l : location) :
  shr_m (shr_record_of_loc m l) = m.
Proof. destruct l as [|[| |]]; reflexivity. Qed.

Lemma round_nearest_even_bounds (m : Z) (l : location) :
  m <= round_nearest_even m l <= m + 1.
Proof.
  unfold round_nearest_even. destruct l as [|[| |]]; try destruct (Z.even m); lia.
Qed.

(** *** Rounding to a format *)

Section Rounding.
Variables prec emax : Z.
Hypothesis Hprec : 0 < prec.

Lemma fexp_spec (a : Z) :
  fexp prec emax a = Z.max (a - prec) (emin prec emax).
Proof. reflexivity. Qed.

Lemma shr_fexp_spec (m : positive) (e : Z) (l : location) :
  e <= fexp prec emax (Zpos (digits2_pos m) + e) ->
  let t := fexp prec emax (Zpos (digits2_pos m) + e) in
  shr_m (fst (shr_fexp prec emax (Zpos m) e l)) = Zpos m / 2 ^ (t - e)
  /\ snd (shr_fexp prec emax (Zpos m) e l) = t.
Proof.
  intros He t. unfold shr_fexp. cbn [Zdigits2]. fold t.
  destruct (shr_div (shr_record_of_loc (Zpos m) l) e (t - e)) as [H1 H2].
  - rewrite shr_record_of_loc_m. lia.
  - lia.
  - rewrite H1, H2, shr_record_of_loc_m. split; [reflexivity | lia].
Qed.

Lemma binary_round_aux_rounded (sx : bool) (m : positive) (e : Z) (l : location) :
  e <= fexp prec emax (Zpos (digits2_pos m) + e) ->
  rounded prec emax sx e (binary_round_aux prec emax sx (Zpos m) e l).
Proof.
  intros He. unfold binary_round_aux.
  destruct (shr_fexp_spec m e l He) as [Hm1 He1].
  set (d := Zpos (digits2_pos m)) in *.
  set (t := fexp prec emax (d + e)) in *.
  destruct (shr_fexp prec emax (Zpos m) e l) as [mrs1 e1].
  cbn [fst snd] in Hm1, He1. subst e1.
  pose proof (round_nearest_even_bounds (shr_m mrs1) (loc_of_shr_record mrs1)) as Hr.
  set (m2 := round_nearest_even (shr_m mrs1) (loc_of_shr_record mrs1)) in *.
  assert (Ht : t = Z.max (d + e - prec) (emin prec emax)) by reflexivity.
  pose proof (digits_bounds m) as [Bl Bu]. fold d in Bl, Bu.
  assert (Hk : 0 < 2 ^ (t - e)) by (apply Z.pow_pos_nonneg; lia).
  assert (Hd : 0 < d) by (unfold d; lia).
  (* the shifted mantissa is below 2^prec, and at least 2^(prec-1) in the
     normal range *)
  assert (F1 : shr_m mrs1 < 2 ^ prec).
  { rewrite Hm1. apply Z.div_lt_upper_bound; [exact Hk|].
    rewrite <- Z.pow_add_r by lia.
    apply Z.lt_le_trans with (1 := Bu). apply Z.pow_le_mono_r; lia. }
  assert (F0 : 0 <= shr_m mrs1).
  { rewrite Hm1. apply Z.div_pos; lia. }
  assert (F2 : emin prec emax < t -> 2 ^ (prec - 1) <= shr_m mrs1).
  { intros Hn. rewrite Hm1. apply Z.div_le_lower_bound; [exact Hk|].
    rewrite <- Z.pow_add_r by lia.
    replace (t - e + (prec - 1)) with (d - 1) by lia. exact Bl. }
  assert (F3 : emin prec emax <= e -> 1 <= shr_m mrs1).
  { intros Hn. destruct (Z.eq_dec t e) as [Ete | Ete].
    - rewrite Hm1, Ete, Z.sub_diag, Z.div_1_r. lia.
    - assert (0 < 2 ^ (prec - 1)) by (apply Z.pow_pos_nonneg; lia).
      specialize (F2 ltac:(lia)). lia. }
  destruct m2 as [|q|q] eqn:Em2; [| |lia].
  - (* rounded to zero *)
    unfold shr_fexp. cbn [Zdigits2 shr_record_of_loc].
    assert (Hn : fexp prec emax (0 + t) - t <= 0).
    { rewrite fexp_spec. lia. }
    assert (Hz : e < emin prec emax).
    { destruct (Z.lt_ge_cases e (emin prec emax)) as [H | H]; [exact H|].
      specialize (F3 H). lia. }
    unfold shr. destruct (fexp prec emax (0 + t) - t); try lia;
      cbn [fst shr_m rounded]; split; [reflexivity | exact Hz | reflexivity | exact Hz].
  - set (d2 := Zpos (digits2_pos q)).
    pose proof (digits_bounds q) as [Ql Qu]. fold d2 in Ql, Qu.
    destruct (Z.eq_dec (Zpos q) (2 ^ prec)) as [Hq | Hq].
    + (* the rounding carried into the next binade *)
      assert (Hd2 : d2 = prec + 1).
      { apply digits_unique. rewrite Hq.
        replace (prec + 1 - 1) with prec by lia.
        split; [lia|]. apply Z.pow_lt_mono_r; lia. }
      assert (Hn : fexp prec emax (d2 + t) - t = 1).
      { rewrite fexp_spec, Hd2. lia. }
      unfold shr_fexp. cbn [Zdigits2 shr_record_of_loc]. fold d2. rewrite Hn.
      cbn [shr]. cbn [iter_pos].
      assert (Hq3 : shr_m (shr_1 {| shr_m := Zpos q; shr_r := false; shr_s := false |})
                    = 2 ^ (prec - 1)).
      { rewrite shr_1_div by (cbn; lia). cbn [shr_m]. rewrite Hq.
        replace prec with (Z.succ (prec - 1)) at 1 by lia.
        rewrite Z.pow_succ_r by lia. rewrite Z.mul_comm, Z.div_mul; lia. }
      assert (0 < 2 ^ (prec - 1)) by (apply Z.pow_pos_nonneg; lia).
      cbn [fst]. destruct (shr_m (shr_1 _)) as [|q3|q3] eqn:E3; [lia | | lia].
      destruct (t + 1 <=? emax - prec) eqn:Eb; [|reflexivity].
      cbn [rounded]. split; [reflexivity|]. unfold bounded, canonical_mantissa.
      rewrite Eb, andb_true_r. apply Z.eqb_eq.
      assert (Hd3 : Zpos (digits2_pos q3) = prec).
      { apply digits_unique. rewrite Hq3. split; [lia|].
        apply Z.pow_lt_mono_r; lia. }
      rewrite Hd3, fexp_spec. lia.
    + (* no carry *)
      assert (Hlt : Zpos q < 2 ^ prec) by lia.
      assert (Hd2 : d2 <= prec) by (apply digits_le; lia).
      assert (Hn : fexp prec emax (d2 + t) - t = 0).
      { rewrite fexp_spec.
        destruct (Z.eq_dec t (emin prec emax)) as [Et | Et]; [lia|].
        assert (2 ^ (prec - 1) <= Zpos q) by (specialize (F2 ltac:(lia)); lia).
        assert (d2 = prec).
        { apply digits_unique. split; assumption. }
        lia. }
      unfold shr_fexp. cbn [Zdigits2 shr_record_of_loc]. fold d2. rewrite Hn.
      cbn [shr shr_m fst].
      destruct (t <=? emax - prec) eqn:Eb; [|reflexivity].
      cbn [rounded]. split; [reflexivity|]. unfold bounded, canonical_mantissa.
      rewrite Eb, andb_true_r. apply Z.eqb_eq. fold d2. lia.
Qed.

Lemma binary_round_rounded (sx : bool) (m : positive) (e : Z) :
  rounded prec emax sx e (binary_round prec emax sx m e).
Proof.
  unfold binary_round, shl_align.
  set (d := Zpos (digits2_pos m)).
  set (t := fexp prec emax (d + e)).
  assert (Ht : t = Z.max (d + e - prec) (emin prec emax)) by reflexivity.
  destruct (t - e) as [|p|p] eqn:E.
  - apply binary_round_aux_rounded. fold d. fold t. lia.
  - apply binary_round_aux_rounded. fold d. fold t. lia.
  - assert (R : rounded prec emax sx t (binary_round_aux prec emax sx
                                (Zpos (Pos.iter xO m p)) t loc_Exact)).
    { apply binary_round_aux_rounded. rewrite digits_shl. fold d.
      replace (d + Zpos p + t) with (d + e) by lia. fold t. lia. }
    revert R. unfold rounded.
    destruct (binary_round_aux _ _ _ _ _ _); try exact (fun H => H).
    intros [Hs Hlt]. lia.
Qed.

Lemma rounded_valid (sx : bool) (e : Z) (r : spec_float) :
  rounded prec emax sx e r -> valid_binary prec emax r = true.
Proof. destruct r; cbn; try reflexivity; intros H; apply H. Qed.

Lemma rounded_not_nan (sx : bool) (e : Z) (r : spec_float) :
  rounded prec emax sx e r -> is_nan r = false.
Proof. destruct r; cbn; try reflexivity; intros []. Qed.

Lemma binary_normalize_not_nan (m e : Z) (sz : bool) :
  is_nan (binary_normalize prec emax m e sz) = false.
Proof.
  destruct m; cbn [binary_normalize]; [reflexivity | |];
    eapply rounded_not_nan, binary_round_rounded.
Qed.

Lemma binary_normalize_valid (m e : Z) (sz : bool) :
  valid_binary prec emax (binary_normalize prec emax m e sz) = true.
Proof.
  destruct m; cbn [binary_normalize]; [reflexivity | |];
    eapply rounded_valid, binary_round_rounded.
Qed.

Lemma shr_fexp_still (q : positive) (e : Z) :
  fexp prec emax (Zpos (digits2_pos q) + e) = e ->
  shr_fexp prec emax (Zpos q) e loc_Exact
  = ({| shr_m := Zpos q; shr_r := false; shr_s := false |}, e).
Proof.
  intros H. unfold shr_fexp. cbn [Zdigits2 shr_record_of_loc].
  rewrite H, Z.sub_diag. reflexivity.
Qed.

Lemma binary_round_aux_still (sx : bool) (q : positive) (e : Z) :
  fexp prec emax (Zpos (digits2_pos q) + e) = e ->
  binary_round_aux prec emax sx (Zpos q) e loc_Exact
  = if e <=? emax - prec then S754_finite sx q e else S754_infinity sx.
Proof.
  intros H. unfold binary_round_aux. rewrite (shr_fexp_still q e H).
  cbn [shr_m loc_of_shr_record round_nearest_even].
  rewrite (shr_fexp_still q e H). reflexivity.
Qed.

(** A mantissa with too few digits is shifted left; nothing is rounded. *)
Lemma binary_round_shl (sx : bool) (m k : positive) (e : Z) :
  fexp prec emax (Zpos (digits2_pos m) + e) = e - Zpos k ->
  binary_round prec emax sx m e
  = if e - Zpos k <=? emax - prec
    then S754_finite sx (Pos.iter xO m k) (e - Zpos k)
    else S754_infinity sx.
Proof.
  intros H. unfold binary_round, shl_align. rewrite H.
  replace (e - Zpos k - e) with (Zneg k) by lia.
  apply binary_round_aux_still. rewrite digits_shl.
  replace (Zpos (digits2_pos m) + Zpos k + (e - Zpos k))
    with (Zpos (digits2_pos m) + e) by lia.
  exact H.
Qed.

(** A mantissa whose low bits are zero is shifted right; nothing is
    rounded. *)
Lemma binary_round_shr (sx : bool) (q k : positive) (e : Z) :
  fexp prec emax (Zpos (digits2_pos q) + Zpos k + e) = e + Zpos k ->
  binary_round prec emax sx (Pos.iter xO q k) e
  = if e + Zpos k <=? emax - prec
    then S754_finite sx q (e + Zpos k)
    else S754_infinity sx.
Proof.
  intros H. unfold binary_round, shl_align. rewrite digits_shl, H.
  replace (e + Zpos k - e) with (Zpos k) by lia.
  unfold binary_round_aux.
  assert (H1 : shr_fexp prec emax (Zpos (Pos.iter xO q k)) e loc_Exact
               = ({| shr_m := Zpos q; shr_r := false; shr_s := false |},
                  e + Zpos k)).
  { unfold shr_fexp. cbn [Zdigits2 shr_record_of_loc]. rewrite digits_shl, H.
    replace (e + Zpos k - e) with (Zpos k) by lia.
    cbn [shr]. rewrite iter_pos_nat, Pos2Nat.inj_iter.
    f_equal. apply shr_iter_shl. }
  rewrite H1. cbn [shr_m loc_of_shr_record round_nearest_even].
  rewrite shr_fexp_still; [reflexivity|].
  rewrite <- H. f_equal. lia.
Qed.

Lemma bounded_emin (m : positive) (e : Z) :
  bounded prec emax m e = true -> emin prec emax <= e.
Proof.
  unfold bounded, canonical_mantissa. intros H.
  apply andb_true_iff in H. destruct H as [H _]. apply Z.eqb_eq in H.
  rewrite fexp_spec in H. lia.
Qed.

(** A difference of valid numbers is valid. *)
Lemma SFsub_valid (a b : spec_float) :
  valid_binary prec emax a = true -> valid_binary prec emax b = true ->
  valid_binary prec emax (SFsub prec emax a b) = true.
Proof.
  intros Ha Hb.
  destruct a as [sa | sa | | sa ma ea], b as [sb | sb | | sb mb eb];
    cbn [SFsub]; try reflexivity; try assumption;
    try (destruct sa, sb; reflexivity).
  apply binary_normalize_valid.
Qed.

Lemma SFsub_not_nan (a b : spec_float) :
  is_nan a = false -> is_finite b = true ->
  is_nan (SFsub prec emax a b) = false.
Proof.
  destruct a as [sa | sa | | sa ma ea], b as [sb | sb | | sb mb eb];
    try discriminate; intros _ _; cbn [SFsub]; try reflexivity.
  - destruct sa, sb; reflexivity.
  - apply binary_normalize_not_nan.
Qed.

(** A nonzero number subtracted from a number other than [-0] does not give
    [-0]: an exact zero difference is [+0], and there is no underflow. *)
Lemma SFsub_not_neg_zero (a b : spec_float) :
  valid_binary prec emax a = true -> valid_binary prec emax b = true ->
  a <> S754_zero true -> is_zero b = false ->
  SFsub prec emax a b <> S754_zero true.
Proof.
  intros Ha Hb Hna Hzb.
  destruct a as [sa | sa | | sa ma ea], b as [sb | sb | | sb mb eb];
    cbn [SFsub]; try discriminate.
  - destruct sa, sb; discriminate.
  - cbn [valid_binary] in Ha, Hb.
    apply bounded_emin in Ha. apply bounded_emin in Hb.
    set (w := cond_Zopp sa _ - cond_Zopp sb _).
    destruct w as [|p|p]; cbn [binary_normalize]; [discriminate | |].
    + pose proof (binary_round_rounded false p (Z.min ea eb)) as R.
      destruct (binary_round _ _ _ _ _); try discriminate.
      cbn [rounded] in R. lia.
    + pose proof (binary_round_rounded true p (Z.min ea eb)) as R.
      destruct (binary_round _ _ _ _ _); try discriminate.
      cbn [rounded] in R. lia.
Qed.

End Rounding.

(** *** Conversions and comparisons *)

Lemma binary_normalize_signed (prec emax : Z) (s : bool) (m : positive) (e : Z) :
  binary_normalize prec emax (cond_Zopp s (Zpos m)) e s
  = binary_round prec emax s m e.
Proof. destruct s; reflexivity. Qed.

(** The promotion of a valid finite [float] is a finite [double]. *)
Lemma to_double_finite (s : bool) (m : positive) (e : Z) :
  F32.valid (S754_finite s m e) = true ->
  exists m' e', to_double (S754_finite s m e) = S754_finite s m' e'.
Proof.
  unfold F32.valid, F32.prec, F32.emax.
  cbn [valid_binary]. unfold bounded, canonical_mantissa. intros H.
  apply andb_true_iff in H. destruct H as [Hc He].
  apply Z.eqb_eq in Hc. apply Z.leb_le in He.
  rewrite fexp_spec in Hc. unfold emin in Hc.
  set (d := Zpos (digits2_pos m)) in *.
  assert (Hd : 0 < d) by (unfold d; lia).
  unfold to_double, F64.prec, F64.emax. rewrite binary_normalize_signed.
  rewrite (binary_round_shl 53 1024 s m (Z.to_pos (53 - d)) e).
  2:{ rewrite fexp_spec. unfold emin. fold d. rewrite Z2Pos.id by lia. lia. }
  rewrite Z2Pos.id by lia.
  replace (e - (53 - d) <=? 1024 - 53) with true by (symmetry; apply Z.leb_le; lia).
  eauto.
Qed.

(** The promotion of a [float] to [double] is exact, and converting back
    returns the [float]. *)
Lemma to_float_to_double (a : spec_float) :
  F32.valid a = true -> to_float (to_double a) = a.
Proof.
  destruct a as [s | s | | s m e]; try reflexivity.
  unfold F32.valid, F32.prec, F32.emax.
  cbn [valid_binary]. unfold bounded, canonical_mantissa. intros H.
  apply andb_true_iff in H. destruct H as [Hc He].
  apply Z.eqb_eq in Hc. apply Z.leb_le in He.
  rewrite fexp_spec in Hc. unfold emin in Hc.
  set (d := Zpos (digits2_pos m)) in *.
  assert (Hd : 0 < d) by (unfold d; lia).
  unfold to_double, F64.prec, F64.emax. rewrite binary_normalize_signed.
  rewrite (binary_round_shl 53 1024 s m (Z.to_pos (53 - d)) e).
  2:{ rewrite fexp_spec. unfold emin. fold d. rewrite Z2Pos.id by lia. lia. }
  rewrite Z2Pos.id by lia.
  replace (e - (53 - d) <=? 1024 - 53) with true by (symmetry; apply Z.leb_le; lia).
  unfold to_float, F32.prec, F32.emax. rewrite binary_normalize_signed.
  rewrite (binary_round_shr 24 128 s m (Z.to_pos (53 - d)) (e - (53 - d))).
  2:{ rewrite fexp_spec. unfold emin. fold d. rewrite Z2Pos.id by lia. lia. }
  rewrite Z2Pos.id by lia.
  replace (e - (53 - d) + (53 - d)) with e by lia.
  replace (e <=? 128 - 24) with true by (symmetry; apply Z.leb_le; lia).
  reflexivity.
Qed.

Lemma SFcompare_refl (a : spec_float) :
  is_nan a = false -> SFcompare a a = Some Eq.
Proof.
  destruct a as [sa | sa | | sa ma ea]; try discriminate; intros _; cbn.
  - reflexivity.
  - destruct sa; reflexivity.
  - rewrite Z.compare_refl, Pos.compare_cont_refl. destruct sa; reflexivity.
Qed.

Lemma leb_refl (a : float) : is_nan a = false -> F32.leb a a = true.
Proof.
  intros H. unfold F32.leb, SFleb. rewrite (SFcompare_refl a H). reflexivity.
Qed.

Lemma ltb_leb (a b : float) : F32.ltb a b = true -> F32.leb a b = true.
Proof.
  unfold F32.ltb, F32.leb, SFltb, SFleb.
  destruct (SFcompare a b) as [[| |]|]; try discriminate; reflexivity.
Qed.

Lemma ltb_irrefl (a : float) : F32.ltb a a = false.
Proof.
  unfold F32.ltb, SFltb. destruct (is_nan a) eqn:E.
  - destruct a; try discriminate. reflexivity.
  - rewrite (SFcompare_refl a E). reflexivity.
Qed.

(** *** The numbers of the program *)

Lemma of_Z_valid (n : Z) :
  F32.valid (F32.of_Z n) = true /\ F32.of_Z n <> S754_zero true.
Proof.
  split; [apply binary_normalize_valid; reflexivity|].
  unfold F32.of_Z. destruct n as [|p|p]; cbn [binary_normalize].
  - discriminate.
  - pose proof (binary_round_rounded F32.prec F32.emax eq_refl false p 0) as R.
    destruct (binary_round _ _ _ _ _); try discriminate.
    cbn [rounded] in R. unfold emin, F32.prec, F32.emax in R. lia.
  - pose proof (binary_round_rounded F32.prec F32.emax eq_refl true p 0) as R.
    destruct (binary_round _ _ _ _ _); try discriminate.
    cbn [rounded] in R. unfold emin, F32.prec, F32.emax in R. lia.
Qed.

Lemma of_Z_not_nan (n : Z) : is_nan (F32.of_Z n) = false.
Proof. apply binary_normalize_not_nan. reflexivity. Qed.

Lemma paddleBoundary_value : paddleBoundary = S754_finite false 15204352 (-18).
Proof. vm_compute. reflexivity. Qed.

Lemma lowerLimit_valid :
  F32.valid paddleBoundary = true /\ paddleBoundary <> S754_zero true.
Proof.
  rewrite paddleBoundary_value. split; [vm_compute; reflexivity | discriminate].
Qed.

(** [scrHeight - paddleBoundary] is a valid [float], and not the negative
    zero, whatever the screen height. *)
Lemma upperLimit_valid (s : State) :
  F32.valid (upperLimit s) = true /\ upperLimit s <> S754_zero true.
Proof.
  destruct (of_Z_valid (scrHeight s)) as [Hv Hz].
  assert (Hb : F32.valid paddleBoundary = true) by (vm_compute; reflexivity).
  split.
  - apply SFsub_valid; [reflexivity | exact Hv | exact Hb].
  - apply SFsub_not_neg_zero;
      [reflexivity | exact Hv | exact Hb | exact Hz | vm_compute; reflexivity].
Qed.

Lemma upperLimit_not_nan (s : State) : is_nan (upperLimit s) = false.
Proof.
  apply SFsub_not_nan;
    [reflexivity | apply of_Z_not_nan | vm_compute; reflexivity].
Qed.

(** Integration with velocity 0 and a finite time step leaves a position
    where it is. *)
Lemma advance_still (a : float) (t : double) :
  F32.valid a = true -> a <> S754_zero true -> is_finite t = true ->
  advance a (F32.of_Z 0) t = a.
Proof.
  intros Hv Hz Ht. unfold advance.
  assert (H0 : exists b, F64.mul (to_double (F32.of_Z 0)) t = S754_zero b).
  { destruct t as [st | st | | st mt et]; try discriminate;
      eexists; reflexivity. }
  destruct H0 as [b ->].
  destruct a as [sa | sa | | sa ma ea].
  - destruct sa; [contradiction|]. destruct b; reflexivity.
  - reflexivity.
  - reflexivity.
  - destruct (to_double_finite sa ma ea Hv) as (m' & e' & E).
    assert (Hadd : F64.add (to_double (S754_finite sa ma ea)) (S754_zero b)
                   = to_double (S754_finite sa ma ea)).
    { rewrite E. reflexivity. }
    rewrite Hadd. apply to_float_to_double. exact Hv.
Qed.


(** ** Facts on the phases of a frame *)

Lemma set_ball_same (s : State) :
  set_ball s (ballOffset s) (ballVelocity s) = s.
Proof. destruct s; reflexivity. Qed.

Lemma set_frames_twice (s : State) (a b : Z) :
  set_frames (set_frames s a) b = set_frames s b.
Proof. reflexivity. Qed.

Lemma paddleCollisions_classify (s : State) :
  paddleCollisions s = if eligible s then respond (classify s) s else s.
Proof.
  unfold paddleCollisions, classify.
  fold (inReach (distance s (candidate s))).
  fold (onLength (distance s (candidate s))).
  fold (onWidth (distance s (candidate s))).
  fold (nearCorner (distance s (candidate s))).
  fold (closerToLength (distance s (candidate s)) (signedDifference s (candidate s))).
  destruct (eligible s); [|reflexivity].
  destruct (inReach _); [|reflexivity].
  destruct (onLength _).
  { rewrite andb_false_r. reflexivity. }
  destruct (onWidth _).
  { rewrite andb_false_r. reflexivity. }
  rewrite andb_true_r.
  destruct (nearCorner _).
  - destruct (closerToLength _ _); reflexivity.
  - cbn [respond]. now rewrite set_ball_same.
Qed.

Lemma noCollisionYet_value : noCollisionYet = 4294967295.
Proof. reflexivity. Qed.


(** Ball position and screen size are left alone by the phases that run
    before the scoring test. *)
Lemma processInput_ball (i : Input) (s : State) :
  ballOffset (processInput i s) = ballOffset s
  /\ ballVelocity (processInput i s) = ballVelocity s
  /\ framesSinceLastCollision (processInput i s) = framesSinceLastCollision s
  /\ scrWidth (processInput i s) = scrWidth s
  /\ scrHeight (processInput i s) = scrHeight s
  /\ initBallVelocity (processInput i s) = initBallVelocity s.
Proof. repeat split. Qed.

Lemma processInput_paddles (i : Input) (s : State) :
  let l := movePaddle (keyW i) (keyS i) (upperLimit s) (y (fst (paddleOffsets s))) in
  let r := movePaddle (keyUp i) (keyDown i) (upperLimit s) (y (snd (paddleOffsets s))) in
  y (fst (paddleOffsets (processInput i s))) = fst l
  /\ fst (paddleVelocities (processInput i s)) = snd l
  /\ y (snd (paddleOffsets (processInput i s))) = fst r
  /\ snd (paddleVelocities (processInput i s)) = snd r.
Proof. repeat split. Qed.

Lemma updatePositions_ball (t : double) (s : State) :
  ballOffset (updatePositions t s) =
    {| x := advance (x (ballOffset s)) (x (ballVelocity s)) t;
       y := advance (y (ballOffset s)) (y (ballVelocity s)) t |}
  /\ ballVelocity (updatePositions t s) = ballVelocity s
  /\ framesSinceLastCollision (updatePositions t s) = framesSinceLastCollision s
  /\ initBallVelocity (updatePositions t s) = initBallVelocity s.
Proof. repeat split. Qed.

Lemma updatePositions_scr (t : double) (s : State) :
  scrHeight (updatePositions t s) = scrHeight s.
Proof. reflexivity. Qed.

Lemma updatePositions_paddles (t : double) (s : State) :
  y (fst (paddleOffsets (updatePositions t s))) =
    advance (y (fst (paddleOffsets s))) (fst (paddleVelocities s)) t
  /\ y (snd (paddleOffsets (updatePositions t s))) =
    advance (y (snd (paddleOffsets s))) (snd (paddleVelocities s)) t.
Proof. repeat split. Qed.

Lemma updatePositions_keeps (t : double) (s : State) :
  framesSinceLastCollision (updatePositions t s) = framesSinceLastCollision s
  /\ ballVelocity (updatePositions t s) = ballVelocity s.
Proof. split; reflexivity. Qed.

Lemma newFrame_ball (i : Input) (s : State) :
  framesSinceLastCollision (newFrame i s) = framesSinceLastCollision s
  /\ ballVelocity (newFrame i s) = ballVelocity s
  /\ ballOffset (newFrame i s) = ballOffset s
  /\ y (fst (paddleOffsets (newFrame i s))) = y (fst (paddleOffsets s))
  /\ y (snd (paddleOffsets (newFrame i s))) = y (snd (paddleOffsets s))
  /\ initBallVelocity (newFrame i s) = initBallVelocity s.
Proof. unfold newFrame. destruct (resized i) as [[w h]|]; repeat split. Qed.

Lemma newFrame_keeps (i : Input) (s : State) :
  framesSinceLastCollision (newFrame i s) = framesSinceLastCollision s
  /\ ballVelocity (newFrame i s) = ballVelocity s
  /\ ballOffset (newFrame i s) = ballOffset s.
Proof. unfold newFrame. destruct (resized i) as [[w h]|]; repeat split. Qed.

Lemma countFrame_ball (s : State) :
  ballOffset (countFrame s) = ballOffset s
  /\ ballVelocity (countFrame s) = ballVelocity s
  /\ paddleOffsets (countFrame s) = paddleOffsets s
  /\ paddleVelocities (countFrame s) = paddleVelocities s
  /\ scrWidth (countFrame s) = scrWidth s
  /\ scrHeight (countFrame s) = scrHeight s
  /\ initBallVelocity (countFrame s) = initBallVelocity s.
Proof. unfold countFrame. destruct (negb _); repeat split. Qed.

Lemma wallCollisions_ball (s : State) :
  ballOffset (wallCollisions s) = ballOffset s
  /\ x (ballVelocity (wallCollisions s)) = x (ballVelocity s)
  /\ paddleOffsets (wallCollisions s) = paddleOffsets s
  /\ paddleVelocities (wallCollisions s) = paddleVelocities s
  /\ framesSinceLastCollision (wallCollisions s) = framesSinceLastCollision s
  /\ scrWidth (wallCollisions s) = scrWidth s
  /\ scrHeight (wallCollisions s) = scrHeight s
  /\ initBallVelocity (wallCollisions s) = initBallVelocity s.
Proof. unfold wallCollisions. destruct (hitsWall s); repeat split. Qed.

Lemma scoring_frame (s : State) :
  framesSinceLastCollision (scoring s) = framesSinceLastCollision s
  /\ paddleOffsets (scoring s) = paddleOffsets s
  /\ paddleVelocities (scoring s) = paddleVelocities s
  /\ scrWidth (scoring s) = scrWidth s
  /\ scrHeight (scoring s) = scrHeight s
  /\ initBallVelocity (scoring s) = initBallVelocity s.
Proof. unfold scoring. destruct (negb _); repeat split. Qed.




Lemma reset_ext (s s' : State) :
  ballOffset s' = ballOffset s -> scrWidth s' = scrWidth s ->
  reset s' = reset s.
Proof. unfold reset. intros -> ->. reflexivity. Qed.

Lemma reset_cases (s : State) : reset s = 0 \/ reset s = 1 \/ reset s = 2.
Proof.
  unfold reset. destruct (F32.leb _ _); [auto|]. destruct (F32.geb _ _); auto.
Qed.

(** ** Facts on whole frames and runs *)

Lemma frame_unfold (i : Input) (s : State) :
  frame i s = newFrame i (updatePositions (dt i) (paddleCollisions (beforePaddles i s))).
Proof. reflexivity. Qed.

Lemma renderLoop_cons (i : Input) (ins : list Input) (s : State) :
  renderLoop (i :: ins) s = renderLoop ins (frame i s).
Proof. reflexivity. Qed.

Lemma renderLoop_Reachable (ins : list Input) :
  forall s : State, Reachable s -> Reachable (renderLoop ins s).
Proof.
  induction ins as [|i ins IH]; intros s H; [exact H|].
  cbn [renderLoop fold_left]. apply IH. now constructor.
Qed.

(** Where a frame leaves the ball and the paddles: the positions that the
    scoring block and [processInput] left, advanced by the velocities that
    the paddle block and [processInput] left. *)
Lemma frame_positions (i : Input) (s : State) :
  let s1 := processInput i s in
  let s3 := beforePaddles i s in
  let s4 := paddleCollisions s3 in
  ballOffset s4 = ballOffset s3
  /\ ballOffset (frame i s) =
       {| x := advance (x (ballOffset s3)) (x (ballVelocity s4)) (dt i);
          y := advance (y (ballOffset s3)) (y (ballVelocity s4)) (dt i) |}
  /\ y (fst (paddleOffsets (frame i s))) =
       advance (y (fst (paddleOffsets s1))) (fst (paddleVelocities s1)) (dt i)
  /\ y (snd (paddleOffsets (frame i s))) =
       advance (y (snd (paddleOffsets s1))) (snd (paddleVelocities s1)) (dt i).
Proof.
  intros s1 s3 s4.
  assert (Hp3 : paddleOffsets s3 = paddleOffsets s1
                /\ paddleVelocities s3 = paddleVelocities s1).
  { unfold s3, beforePaddles. fold s1.
    destruct (scoring_frame (wallCollisions (countFrame s1)))
      as (_ & -> & -> & _).
    destruct (wallCollisions_ball (countFrame s1))
      as (_ & _ & -> & -> & _).
    destruct (countFrame_ball s1) as (_ & _ & -> & -> & _).
    split; reflexivity. }
  assert (H4 : ballOffset s4 = ballOffset s3
               /\ paddleOffsets s4 = paddleOffsets s3
               /\ paddleVelocities s4 = paddleVelocities s3).
  { unfold s4. rewrite paddleCollisions_classify.
    destruct (eligible s3); [|repeat split].
    destruct (classify s3); repeat split. }
  destruct H4 as (Hb4 & Hpo4 & Hpv4). destruct Hp3 as (Hpo3 & Hpv3).
  split; [exact Hb4|].
  assert (Hf : frame i s = newFrame i (updatePositions (dt i) s4)) by reflexivity.
  destruct (newFrame_ball i (updatePositions (dt i) s4))
    as (_ & _ & Hno & Hn0 & Hn1 & _).
  destruct (updatePositions_ball (dt i) s4) as (Huo & _).
  destruct (updatePositions_paddles (dt i) s4) as (Hu0 & Hu1).
  rewrite Hf, Hno, Hn0, Hn1, Huo, Hu0, Hu1, Hb4, Hpo4, Hpv4, Hpo3, Hpv3.
  repeat split.
Qed.

(** The tests that come before the integration read the ball position the
    frame started with. *)
Lemma tests_read_start_position (i : Input) (s : State) :
  let s1 := processInput i s in
  hitsWall (countFrame s1) = hitsWall s
  /\ reset (wallCollisions (countFrame s1)) = reset s.
Proof.
  intros s1. split.
  - unfold hitsWall.
    destruct (countFrame_ball s1) as (-> & _ & _ & _ & _ & -> & _).
    reflexivity.
  - apply reset_ext.
    + destruct (wallCollisions_ball (countFrame s1)) as (-> & _).
      destruct (countFrame_ball s1) as (-> & _). reflexivity.
    + destruct (wallCollisions_ball (countFrame s1))
        as (_ & _ & _ & _ & _ & -> & _).
      destruct (countFrame_ball s1) as (_ & _ & _ & _ & -> & _). reflexivity.
Qed.

Lemma frame_velocity (i : Input) (s : State) :
  ballVelocity (frame i s) = ballVelocity (paddleCollisions (beforePaddles i s)).
Proof.
  rewrite frame_unfold.
  destruct (newFrame_keeps i
    (updatePositions (dt i) (paddleCollisions (beforePaddles i s)))) as (_ & -> & _).
  apply updatePositions_keeps.
Qed.

Lemma frame_scrHeight (i : Input) (s : State) :
  resized i = None -> scrHeight (frame i s) = scrHeight s.
Proof.
  intros Hr.
  assert (Hp : forall m, scrHeight (paddleCollisions m) = scrHeight m).
  { intros m. rewrite paddleCollisions_classify.
    destruct (eligible m); [|reflexivity]. destruct (classify m); reflexivity. }
  rewrite frame_unfold. unfold newFrame, beforePaddles. rewrite Hr.
  rewrite (updatePositions_scr (dt i)), Hp.
  destruct (scoring_frame (wallCollisions (countFrame (processInput i s))))
    as (_ & _ & _ & _ & -> & _).
  destruct (wallCollisions_ball (countFrame (processInput i s)))
    as (_ & _ & _ & _ & _ & _ & -> & _).
  destruct (countFrame_ball (processInput i s))
    as (_ & _ & _ & _ & _ & -> & _).
  reflexivity.
Qed.

(** ** The boundary clamp *)

Lemma movePaddle_clamped (lim : float) (up down : bool) (y0 : float) :
  is_nan lim = false -> clamped lim up down y0 (movePaddle up down lim y0).
Proof.
  intros Hlim.
  assert (Hlow : F32.leb paddleBoundary paddleBoundary = true)
    by (vm_compute; reflexivity).
  unfold clamped, movePaddle, pressUp, pressDown, lowerLimit.
  destruct up, down; cbn [fst snd].
  - destruct (F32.ltb y0 lim); cbn [fst snd].
    + destruct (F32.gtb y0 paddleBoundary) eqn:E; cbn [fst];
        (split; [first [apply ltb_leb; exact E | exact Hlow] | reflexivity]).
    + destruct (F32.gtb lim paddleBoundary) eqn:E; cbn [fst];
        (split; [first [apply ltb_leb; exact E | exact Hlow] | reflexivity]).
  - destruct (F32.ltb y0 lim) eqn:E; cbn [fst];
      (split; [first [apply ltb_leb; exact E | apply leb_refl; exact Hlim]
              | reflexivity]).
  - destruct (F32.gtb y0 paddleBoundary) eqn:E; cbn [fst];
      (split; [first [apply ltb_leb; exact E | exact Hlow] | reflexivity]).
  - reflexivity.
Qed.

Lemma movePaddle_heldAtLimit (lim : float) (up down : bool) (y0 : float)
    (t : double) :
  F32.valid lim = true -> lim <> S754_zero true -> is_finite t = true ->
  let p := movePaddle up down lim y0 in
  heldAtLimit lim up down y0 (advance (fst p) (snd p) t).
Proof.
  intros Hv Hz Ht p. unfold p, heldAtLimit, movePaddle, pressUp, pressDown, lowerLimit.
  destruct up, down; cbn [fst snd]; try exact I.
  - intros ->. cbn [fst snd]. apply advance_still; assumption.
  - intros ->. cbn [fst snd].
    destruct lowerLimit_valid as [Hlv Hlz]. apply advance_still; assumption.
Qed.

(** For a finite time step, a paddle that [processInput] pinned to a limit
    ends the frame exactly at the limit. *)
Lemma frame_heldAtLimit (i : Input) (s : State) :
  is_finite (dt i) = true ->
  heldAtLimit (upperLimit s) (keyW i) (keyS i)
    (y (fst (paddleOffsets s))) (y (fst (paddleOffsets (frame i s))))
  /\ heldAtLimit (upperLimit s) (keyUp i) (keyDown i)
    (y (snd (paddleOffsets s))) (y (snd (paddleOffsets (frame i s)))).
Proof.
  intros Ht.
  destruct (frame_positions i s) as (_ & _ & -> & ->).
  destruct (upperLimit_valid s) as [Hv Hz].
  destruct (processInput_paddles i s) as (-> & -> & -> & ->).
  split; apply movePaddle_heldAtLimit; assumption.
Qed.

(** Holding the key over any number of frames of finite length, without a
    resize, keeps the paddle at the limit. *)
Lemma held_up_stays (ins : list Input) :
  forall s : State,
    Forall (fun i => keyW i = true /\ keyS i = false
                     /\ is_finite (dt i) = true /\ resized i = None) ins ->
    F32.ltb (y (fst (paddleOffsets s))) (upperLimit s) = false ->
    ins <> [] ->
    y (fst (paddleOffsets (renderLoop ins s))) = upperLimit s.
Proof.
  induction ins as [|i ins IH]; intros s Hall Hy Hne; [contradiction|].
  inversion Hall as [|i' ins' (HW & HS & Ht & Hr) Hall']; subst.
  destruct (frame_heldAtLimit i s Ht) as [Hleft _]. rewrite HW, HS in Hleft.
  specialize (Hleft Hy).
  assert (Hlim : upperLimit (frame i s) = upperLimit s).
  { unfold upperLimit. rewrite (frame_scrHeight i s Hr). reflexivity. }
  change (renderLoop (i :: ins) s) with (renderLoop ins (frame i s)).
  destruct ins as [|j ins].
  - exact Hleft.
  - rewrite IH; [exact Hlim | exact Hall' | | discriminate].
    rewrite Hlim, Hleft. apply ltb_irrefl.
Qed.

(** ** The cooldown counter across frames *)

Lemma countFrame_tick (s : State) :
  framesSinceLastCollision (countFrame s) = tick (framesSinceLastCollision s).
Proof. unfold countFrame, tick. destruct (negb _); reflexivity. Qed.

Lemma beforePaddles_frames (i : Input) (s : State) :
  framesSinceLastCollision (beforePaddles i s) = tick (framesSinceLastCollision s).
Proof.
  unfold beforePaddles.
  destruct (scoring_frame (wallCollisions (countFrame (processInput i s)))) as (-> & _).
  destruct (wallCollisions_ball (countFrame (processInput i s)))
    as (_ & _ & _ & _ & -> & _).
  rewrite countFrame_tick. reflexivity.
Qed.

Lemma frame_frames (i : Input) (s : State) :
  framesSinceLastCollision (frame i s) =
  if collisionInFrame i s then 0 else tick (framesSinceLastCollision s).
Proof.
  rewrite frame_unfold. destruct (newFrame_keeps i
    (updatePositions (dt i) (paddleCollisions (beforePaddles i s)))) as (-> & _).
  destruct (updatePositions_keeps (dt i) (paddleCollisions (beforePaddles i s)))
    as (-> & _).
  unfold collisionInFrame, collides.
  rewrite paddleCollisions_classify.
  destruct (eligible (beforePaddles i s)); cbn [andb].
  - destruct (classify (beforePaddles i s)); cbn [respond bounce];
      try reflexivity; apply beforePaddles_frames.
  - apply beforePaddles_frames.
Qed.

Lemma tick_small (c : Z) :
  0 <= c < noCollisionYet -> tick c = c + 1.
Proof.
  intros Hc. unfold tick.
  destruct (c =? noCollisionYet) eqn:E.
  - apply Z.eqb_eq in E. lia.
  - cbn [negb]. unfold to_uint. apply Z.mod_small.
    rewrite noCollisionYet_value in Hc. unfold uint_mod. lia.
Qed.

Lemma tick_sentinel : tick noCollisionYet = noCollisionYet.
Proof. reflexivity. Qed.

Lemma tick_min (c : Z) :
  0 <= c <= noCollisionYet -> tick c = Z.min (c + 1) noCollisionYet.
Proof.
  intros Hc. destruct (Z.eq_dec c noCollisionYet) as [-> | Hne].
  - reflexivity.
  - assert (Hlt : 0 <= c < noCollisionYet) by (split; [apply Hc | apply Z.le_neq; split; [apply Hc | exact Hne]]).
    rewrite (tick_small c Hlt). symmetry. apply Z.min_l.
    apply Z.le_succ_l. apply Hlt.
Qed.

Lemma quiet_cons (i : Input) (ins : list Input) (s : State) :
  quiet (i :: ins) s = negb (collisionInFrame i s) && quiet ins (frame i s).
Proof. reflexivity. Qed.

Lemma quiet_counts (ins : list Input) :
  forall s : State,
    0 <= framesSinceLastCollision s ->
    quiet ins s = true ->
    framesSinceLastCollision s + Z.of_nat (length ins) <= noCollisionYet ->
    framesSinceLastCollision (renderLoop ins s)
    = framesSinceLastCollision s + Z.of_nat (length ins).
Proof.
  induction ins as [|i ins IH]; intros s H0 Hq Hn.
  - cbn. lia.
  - cbn [quiet] in Hq. apply andb_true_iff in Hq. destruct Hq as [Hc Hq].
    apply negb_true_iff in Hc.
    cbn [length] in Hn. rewrite Nat2Z.inj_succ in Hn.
    assert (Hf : framesSinceLastCollision (frame i s)
                 = framesSinceLastCollision s + 1).
    { rewrite frame_frames, Hc. apply tick_small. lia. }
    cbn [renderLoop fold_left]. fold (renderLoop ins (frame i s)).
    rewrite IH; try assumption; rewrite Hf; cbn [length];
      rewrite ?Nat2Z.inj_succ; lia.
Qed.



(** ** A run that parks the ball after a paddle collision *)

Lemma parked_after_bounce :
  collisionInFrame (holdUp sixteenth) insideRightPaddle = true
  /\ frame (holdUp sixteenth) insideRightPaddle = parked 0.
Proof. split; vm_compute; reflexivity. Qed.

Lemma parked_frames (c : Z) : framesSinceLastCollision (parked c) = c.
Proof. reflexivity. Qed.

Lemma parked_frame (c : Z) :
  0 <= c < noCollisionYet ->
  collisionInFrame idle0 (parked c) = false
  /\ frame idle0 (parked c) = parked (c + 1).
Proof.
  intros Hc.
  assert (Hb : beforePaddles idle0 (parked c) = parked (c + 1)).
  { unfold beforePaddles.
    replace (processInput idle0 (parked c)) with (parked c)
      by (vm_compute; reflexivity).
    assert (Hcf : countFrame (parked c) = parked (c + 1)).
    { unfold countFrame. rewrite parked_frames.
      replace (c =? noCollisionYet) with false
        by (symmetry; apply Z.eqb_neq; lia).
      cbn [negb]. unfold to_uint. rewrite Z.mod_small; [apply set_frames_twice|].
      rewrite noCollisionYet_value in Hc. unfold uint_mod. lia. }
    rewrite Hcf. generalize (c + 1). intros c'.
    unfold wallCollisions.
    replace (hitsWall (parked c')) with false by (vm_compute; reflexivity).
    unfold scoring.
    replace (reset (parked c')) with 0 by (vm_compute; reflexivity).
    reflexivity. }
  assert (Hn : classify (parked (c + 1)) = NoHit) by (vm_compute; reflexivity).
  split.
  - unfold collisionInFrame, collides. rewrite Hb, Hn. apply andb_false_r.
  - rewrite frame_unfold, Hb, paddleCollisions_classify, Hn.
    generalize (c + 1). intros c'.
    destruct (eligible (parked c')); vm_compute; reflexivity.
Qed.

Lemma parked_run (n : nat) :
  forall c : Z,
    0 <= c -> c + Z.of_nat n <= noCollisionYet ->
    quiet (repeat idle0 n) (parked c) = true
    /\ renderLoop (repeat idle0 n) (parked c) = parked (c + Z.of_nat n).
Proof.
  induction n as [|n IH]; intros c H0 Hn.
  - change (Z.of_nat 0) with 0. rewrite Z.add_0_r.
    split; reflexivity.
  - rewrite Nat2Z.inj_succ in Hn.
    destruct (parked_frame c) as [Hcol Hf]; [lia|].
    destruct (IH (c + 1)) as [Hq Hr]; [lia | lia |].
    change (repeat idle0 (S n)) with (idle0 :: repeat idle0 n).
    rewrite quiet_cons, renderLoop_cons, Hcol, Hf, Hq, Hr, Nat2Z.inj_succ.
    replace (c + Z.succ (Z.of_nat n)) with (c + 1 + Z.of_nat n) by lia.
    split; reflexivity.
Qed.

(** ** The horizontal speeds the game can reach *)

















(** *** An infinite speed takes the ball out of reach *)






(** The amplification saturates: 1716 amplifications take the initial speed
    150 to infinity, and infinity is amplified to itself.  By
    [collision_speed_finite] no collision of a run from the initial state
    meets that speed. *)
Lemma speeds_saturate :
  nth 1716 speeds S754_nan = S754_infinity false
  /\ amplify (S754_infinity false) = S754_infinity false.
Proof. split; [vm_compute; reflexivity | reflexivity]. Qed.

(** ** The claims *)

(** *** C1: which paddle is tested *)

(** C1 (the code departs from the claim): the ball served towards the left
    in the 800 x 600 window is at x = 390.625, not right of
    [scrWidth / 2 = 400], yet the candidate index is 1, the right paddle,
    because the source compares with [scrHeight / 2.0f = 300]. *)
Theorem candidate_compares_with_height :
  F32.gtb (x (ballOffset leftOfMiddle))
          (F32.div (F32.of_Z (scrWidth leftOfMiddle)) (F32.of_Z 2)) = false
  /\ candidate leftOfMiddle = 1.
Proof. split; vm_compute; reflexivity. Qed.

(** In a window taller than twice its width the slip lets the ball pass
    through the right paddle: with the ball on the centre of that paddle the
    candidate is the left paddle and no collision is detected. *)
Lemma tall_window_misses_right_paddle :
  ballOffset tallWindow = snd (paddleOffsets tallWindow)
  /\ eligible tallWindow = true
  /\ candidate tallWindow = 0
  /\ collides tallWindow = false.
Proof. repeat split; vm_compute; reflexivity. Qed.

(** What the code does select, for every state. *)
Lemma candidate_spec (s : State) :
  candidate s =
  if F32.gtb (x (ballOffset s)) (F32.div (F32.of_Z (scrHeight s)) (F32.of_Z 2))
  then 1 else 0.
Proof. reflexivity. Qed.

(** *** C2: the order of the phases *)



(** *** C3: the ball after a point of the left player *)

(** C3 (counterexample): 42 frames after the start the ball is across the
    right bound ([793.75 + 8 >= 800]); the scoring block of the next frame
    puts it at the centre [(400, 300)] with velocity [(-150, 150)], and the
    integration at the end of the same frame moves it on: after the frame
    the ball is at [(390.625, 309.375)], not at the centre. *)
Lemma ball_leaves_center_in_scoring_frame :
  Reachable pastRightBound
  /\ F32.geb (F32.add (x (ballOffset pastRightBound)) ballRadius)
             (F32.of_Z (scrWidth pastRightBound)) = true
  /\ ballOffset (frame (idle sixteenth) pastRightBound) =
       {| x := F32.div (F32.of_Z 3125) (F32.of_Z 8);
          y := F32.div (F32.of_Z 2475) (F32.of_Z 8) |}
  /\ ballOffset (frame (idle sixteenth) pastRightBound)
     <> {| x := F32.div (F32.of_Z (scrWidth pastRightBound)) (F32.of_Z 2);
           y := F32.div (F32.of_Z (scrHeight pastRightBound)) (F32.of_Z 2) |}.
Proof.
  split; [apply renderLoop_Reachable; apply reach_init|].
  split; [vm_compute; reflexivity|].
  split; [vm_compute; reflexivity|].
  vm_compute. discriminate.
Qed.

(** C3 (amended): in a frame whose scoring test finds the ball across the
    right bound and not across the left one, the scoring block sets the
    ball position to exactly [(scrWidth / 2, scrHeight / 2)] and the ball
    velocity to [(-initBallVelocity.x, initBallVelocity.y)].  The paddle
    block and the integration of that frame still run afterwards: at the
    end of the frame the ball is at the centre advanced by [velocity * dt],
    and the velocity is the served one unless the paddle block detects a
    collision at the centre. *)
Theorem right_bound_serves_then_integrates (i : Input) (s : State) :
  F32.leb (F32.sub (x (ballOffset s)) ballRadius) (F32.of_Z 0) = false ->
  F32.geb (F32.add (x (ballOffset s)) ballRadius) (F32.of_Z (scrWidth s)) = true ->
  let center :=
    {| x := F32.div (F32.of_Z (scrWidth s)) (F32.of_Z 2);
       y := F32.div (F32.of_Z (scrHeight s)) (F32.of_Z 2) |} in
  let served :=
    {| x := F32.opp (x (initBallVelocity s)); y := y (initBallVelocity s) |} in
  let v := ballVelocity (paddleCollisions (beforePaddles i s)) in
  ballOffset (beforePaddles i s) = center
  /\ ballVelocity (beforePaddles i s) = served
  /\ ballVelocity (frame i s) = v
  /\ ballOffset (frame i s) =
       {| x := advance (x center) (x v) (dt i);
          y := advance (y center) (y v) (dt i) |}
  /\ (collisionInFrame i s = false -> v = served).
Proof.
  intros Hl Hr center served v.
  set (m := wallCollisions (countFrame (processInput i s))).
  assert (Hb : ballOffset m = ballOffset s).
  { unfold m. destruct (wallCollisions_ball (countFrame (processInput i s))) as (-> & _).
    destruct (countFrame_ball (processInput i s)) as (-> & _). reflexivity. }
  assert (Hw : scrWidth m = scrWidth s /\ scrHeight m = scrHeight s
               /\ initBallVelocity m = initBallVelocity s).
  { unfold m.
    destruct (wallCollisions_ball (countFrame (processInput i s)))
      as (_ & _ & _ & _ & _ & -> & -> & ->).
    destruct (countFrame_ball (processInput i s))
      as (_ & _ & _ & _ & -> & -> & ->). repeat split. }
  destruct Hw as (Hw & Hh & Hi).
  assert (Hreset : reset m = 2).
  { unfold reset. rewrite Hb, Hw, Hl, Hr. reflexivity. }
  assert (Hsc : scoring m = set_ball m center served).
  { unfold scoring. rewrite Hreset. cbn [Z.eqb negb].
    unfold screenCenter. rewrite Hw, Hh, Hi. reflexivity. }
  assert (Ho : ballOffset (beforePaddles i s) = center).
  { unfold beforePaddles. fold m. rewrite Hsc. reflexivity. }
  assert (Hv : ballVelocity (beforePaddles i s) = served).
  { unfold beforePaddles. fold m. rewrite Hsc. reflexivity. }
  assert (Hpo : ballOffset (paddleCollisions (beforePaddles i s)) = center).
  { rewrite paddleCollisions_classify.
    destruct (eligible _); [|exact Ho].
    destruct (classify _); exact Ho. }
  split; [exact Ho|]. split; [exact Hv|].
  assert (Hf : frame i s = newFrame i (updatePositions (dt i)
                                (paddleCollisions (beforePaddles i s))))
    by reflexivity.
  destruct (newFrame_ball i (updatePositions (dt i)
              (paddleCollisions (beforePaddles i s)))) as (_ & Hnv & Hno & _).
  destruct (updatePositions_ball (dt i) (paddleCollisions (beforePaddles i s)))
    as (Huo & Huv & _ & _).
  split; [rewrite Hf, Hnv, Huv; reflexivity|].
  split; [rewrite Hf, Hno, Huo, Hpo; reflexivity|].
  intros Hc. unfold v. rewrite paddleCollisions_classify.
  unfold collisionInFrame, collides in Hc.
  destruct (eligible _); [|exact Hv].
  destruct (classify _); try discriminate. exact Hv.
Qed.

Lemma right_bound_serves_then_integrates_witness :
  ballOffset (beforePaddles (idle sixteenth) pastRightBound) =
    {| x := F32.of_Z 400; y := F32.of_Z 300 |}
  /\ ballVelocity (frame (idle sixteenth) pastRightBound) =
       {| x := F32.of_Z (-150); y := F32.of_Z 150 |}.
Proof.
  assert (Hl : F32.leb (F32.sub (x (ballOffset pastRightBound)) ballRadius)
                       (F32.of_Z 0) = false) by (vm_compute; reflexivity).
  assert (Hr : F32.geb (F32.add (x (ballOffset pastRightBound)) ballRadius)
                       (F32.of_Z (scrWidth pastRightBound)) = true)
    by (vm_compute; reflexivity).
  destruct (right_bound_serves_then_integrates (idle sixteenth) pastRightBound
              Hl Hr) as (Ho & _ & Hv & _ & Hs).
  split.
  - rewrite Ho. vm_compute. reflexivity.
  - rewrite Hv, Hs; vm_compute; reflexivity.
Defined.

(** *** C4: the paddles and their limits *)

(** C4 (counterexample): from the initial state, one frame of two seconds
    with W held carries the left paddle from y = 300 to y = 600, above its
    upper limit [scrHeight - paddleBoundary = 542]. *)
Lemma paddle_passes_upper_limit :
  F64.leb (F64.of_Z 0) (dt (holdW (F64.of_Z 2))) = true
  /\ upperLimit (frame (holdW (F64.of_Z 2)) initialState) = F32.of_Z 542
  /\ y (fst (paddleOffsets (frame (holdW (F64.of_Z 2)) initialState)))
     = F32.of_Z 600
  /\ F32.leb (y (fst (paddleOffsets (frame (holdW (F64.of_Z 2)) initialState))))
             (upperLimit (frame (holdW (F64.of_Z 2)) initialState)) = false.
Proof. repeat split; vm_compute; reflexivity. Qed.

(** C4 (amended): the boundary clamp acts in [processInput], before the
    integration of the frame.  With only the up key of a paddle held, the
    position after input processing is at most [scrHeight - paddleBoundary]:
    a paddle strictly below that limit keeps its position and gets velocity
    [+paddleSpeed], any other is set to exactly the limit with velocity 0.
    With the down key held the position after input processing is at least
    [paddleBoundary], in the same way with [-paddleSpeed]; with no key held
    the position is kept and the velocity is 0.  The integration then adds
    [velocity * dt] to the position without a clamp; for a finite [dt] a
    paddle that was pinned to a limit ends the frame exactly at it. *)
Theorem paddle_clamp_at_input (i : Input) (s : State) :
  let lim := F32.sub (F32.of_Z (scrHeight s)) paddleBoundary in
  let s1 := processInput i s in
  let left0 := y (fst (paddleOffsets s)) in
  let right0 := y (snd (paddleOffsets s)) in
  let left := y (fst (paddleOffsets (frame i s))) in
  let right := y (snd (paddleOffsets (frame i s))) in
  clamped lim (keyW i) (keyS i) left0
          (y (fst (paddleOffsets s1)), fst (paddleVelocities s1))
  /\ clamped lim (keyUp i) (keyDown i) right0
          (y (snd (paddleOffsets s1)), snd (paddleVelocities s1))
  /\ left = advance (y (fst (paddleOffsets s1))) (fst (paddleVelocities s1)) (dt i)
  /\ right = advance (y (snd (paddleOffsets s1))) (snd (paddleVelocities s1)) (dt i)
  /\ (is_finite (dt i) = true ->
      heldAtLimit lim (keyW i) (keyS i) left0 left
      /\ heldAtLimit lim (keyUp i) (keyDown i) right0 right).
Proof.
  intros lim s1 left0 right0 left right.
  destruct (frame_positions i s) as (_ & _ & H0 & H1).
  pose proof (upperLimit_not_nan s) as Hlim. fold lim in Hlim.
  destruct (processInput_paddles i s) as (E0 & V0 & E1 & V1).
  fold s1 lim left0 right0 in E0, V0, E1, V1.
  change (upperLimit s) with lim in E0, V0, E1, V1.
  split; [|split; [|split; [exact H0 | split; [exact H1|]]]].
  - rewrite E0, V0, <- surjective_pairing. apply movePaddle_clamped, Hlim.
  - rewrite E1, V1, <- surjective_pairing. apply movePaddle_clamped, Hlim.
  - exact (frame_heldAtLimit i s).
Qed.

(** After the left paddle has passed its limit in a frame of two seconds,
    the next frame with W held puts it back to the limit, 542. *)
Lemma paddle_clamp_at_input_witness :
  let s := frame (holdW (F64.of_Z 2)) initialState in
  is_finite (dt (holdW (F64.of_Z 1))) = true
  /\ F32.ltb (y (fst (paddleOffsets s))) (upperLimit s) = false
  /\ y (fst (paddleOffsets (frame (holdW (F64.of_Z 1)) s))) = F32.of_Z 542.
Proof.
  intros s.
  assert (Ht : is_finite (dt (holdW (F64.of_Z 1))) = true) by reflexivity.
  assert (Hy : F32.ltb (y (fst (paddleOffsets s))) (upperLimit s) = false)
    by (vm_compute; reflexivity).
  destruct (paddle_clamp_at_input (holdW (F64.of_Z 1)) s)
    as (_ & _ & _ & _ & Hheld).
  destruct (Hheld Ht) as [Hleft _].
  split; [exact Ht|]. split; [exact Hy|].
  rewrite (Hleft Hy). vm_compute. reflexivity.
Defined.

(** *** C5: the counter counts up *)

(** C5 (counterexample): the 40th frame of the run [insideRightPaddle]
    detects a paddle collision and leaves the counter at 0; [2^32 - 1]
    frames later, none of which detects a paddle collision, the counter
    holds [2^32 - 1], the sentinel of the inactive state. *)
Lemma counter_reenters_sentinel :
  let s := frame (holdUp sixteenth) insideRightPaddle in
  let ins := repeat idle0 (Z.to_nat 4294967295) in
  Reachable s
  /\ collisionInFrame (holdUp sixteenth) insideRightPaddle = true
  /\ framesSinceLastCollision s = 0
  /\ quiet ins s = true
  /\ framesSinceLastCollision (renderLoop ins s) = noCollisionYet.
Proof.
  intros s ins. destruct parked_after_bounce as [Hc Hp].
  split; [apply reach_frame; apply renderLoop_Reachable; apply reach_init|].
  split; [exact Hc|]. unfold s. rewrite Hp.
  split; [reflexivity|].
  destruct (parked_run (Z.to_nat 4294967295) 0) as [Hq Hr].
  - lia.
  - rewrite Z2Nat.id by lia. rewrite noCollisionYet_value. lia.
  - unfold ins. split; [exact Hq|].
    rewrite Hr, parked_frames, Z2Nat.id by lia. reflexivity.
Qed.

(** C5 (amended): from any counter value [c] (in particular from the 0 set
    by a paddle collision), a run of frames without paddle collision
    increases the counter by exactly 1 per frame, without wrap-around, as
    long as it is below [2^32 - 1]; the increment of [2^32 - 2] yields
    [2^32 - 1], which is the sentinel value, and there the counter stays
    until the next collision.  In short the counter after [n] such frames is
    [min (c + n) (2^32 - 1)]. *)
Theorem counter_counts_up_to_sentinel (ins : list Input) (s : State) :
  0 <= framesSinceLastCollision s <= noCollisionYet ->
  quiet ins s = true ->
  framesSinceLastCollision (renderLoop ins s)
  = Z.min (framesSinceLastCollision s + Z.of_nat (length ins)) noCollisionYet.
Proof.
  revert s. induction ins as [|i ins IH]; intros s Hc Hq.
  - cbn [renderLoop fold_left length Z.of_nat]. lia.
  - cbn [quiet] in Hq. apply andb_true_iff in Hq. destruct Hq as [Hcol Hq].
    apply negb_true_iff in Hcol.
    assert (Hf : framesSinceLastCollision (frame i s)
                 = Z.min (framesSinceLastCollision s + 1) noCollisionYet).
    { rewrite frame_frames, Hcol. apply tick_min. exact Hc. }
    cbn [renderLoop fold_left]. fold (renderLoop ins (frame i s)).
    rewrite IH; [|rewrite Hf; lia|exact Hq].
    rewrite Hf. cbn [length]. rewrite Nat2Z.inj_succ. lia.
Qed.

Lemma counter_counts_up_to_sentinel_witness :
  0 <= framesSinceLastCollision (parked 0) <= noCollisionYet
  /\ quiet (repeat idle0 3) (parked 0) = true
  /\ framesSinceLastCollision (renderLoop (repeat idle0 3) (parked 0)) = 3.
Proof.
  assert (Hc : 0 <= framesSinceLastCollision (parked 0) <= noCollisionYet)
    by (vm_compute; split; discriminate).
  assert (Hq : quiet (repeat idle0 3) (parked 0) = true)
    by (vm_compute; reflexivity).
  split; [exact Hc|]. split; [exact Hq|].
  rewrite (counter_counts_up_to_sentinel (repeat idle0 3) (parked 0) Hc Hq).
  reflexivity.
Defined.

(** *** C6: the cooldown gates the paddle check *)



(** *** C7: the corner branch *)



(** *** C8: the response to a paddle collision *)



(** *** C9: the serve after a point *)

(** C9: on every score event the scoring block puts the ball at the screen
    centre [(scrWidth / 2, scrHeight / 2)], sets [ballVelocity.x] to
    [+initBallVelocity.x] when the right player scored and to
    [-initBallVelocity.x] when the left player scored, and sets
    [ballVelocity.y] to [initBallVelocity.y]. *)
Theorem scoring_serves_from_center (s : State) (p : Scorer) :
  scoreEvent s = Some p ->
  ballOffset (scoring s) =
    {| x := F32.div (F32.of_Z (scrWidth s)) (F32.of_Z 2);
       y := F32.div (F32.of_Z (scrHeight s)) (F32.of_Z 2) |}
  /\ x (ballVelocity (scoring s)) =
       match p with
       | RightPlayer => x (initBallVelocity s)
       | LeftPlayer => F32.opp (x (initBallVelocity s))
       end
  /\ y (ballVelocity (scoring s)) = y (initBallVelocity s).
Proof.
  unfold scoreEvent, scoring. intros H.
  destruct (reset_cases s) as [E | [E | E]]; rewrite E in *; cbn in H.
  - discriminate.
  - injection H as <-. repeat split.
  - injection H as <-. repeat split.
Qed.

Lemma scoring_serves_from_center_witness :
  scoreEvent pastRightBound = Some LeftPlayer
  /\ ballOffset (scoring pastRightBound) =
       {| x := F32.div (F32.of_Z (scrWidth pastRightBound)) (F32.of_Z 2);
          y := F32.div (F32.of_Z (scrHeight pastRightBound)) (F32.of_Z 2) |}
  /\ x (ballVelocity (scoring pastRightBound))
     = F32.opp (x (initBallVelocity pastRightBound))
  /\ y (ballVelocity (scoring pastRightBound))
     = y (initBallVelocity pastRightBound).
Proof.
  assert (E : scoreEvent pastRightBound = Some LeftPlayer)
    by (vm_compute; reflexivity).
  split; [exact E|].
  exact (scoring_serves_from_center pastRightBound LeftPlayer E).
Defined.

(** *** C10: the guard of the paddle block *)

(** C10: the sentinel stored by [framesSinceLastCollision = -1] is
    [2^32 - 1], which is at least the threshold 10; therefore, for every
    value the counter can hold, the guard
    [framesSinceLastCollision >= framesThreshold || framesSinceLastCollision == -1]
    yields the same boolean as [framesSinceLastCollision >= framesThreshold]
    alone. *)
Theorem eligible_sentinel_redundant (s : State) :
  noCollisionYet = 2 ^ 32 - 1
  /\ framesThreshold <= noCollisionYet
  /\ eligible s = (framesSinceLastCollision s >=? framesThreshold).
Proof.
  split; [reflexivity|]. split; [discriminate|].
  unfold eligible.
  destruct (framesSinceLastCollision s =? noCollisionYet) eqn:E.
  - apply Z.eqb_eq in E. rewrite E. reflexivity.
  - apply orb_false_r.
Qed.

(** ** The rest of the program

    The functions around the physics of the frame: the projection matrix,
    the circle model of the ball and the buffers made from it, the window,
    and the shader functions. *)

(** *** More on the floating-point layer *)

Lemma to_float_valid (a : double) : F32.valid (to_float a) = true.
Proof.
  destruct a as [s | s | | s m e]; try reflexivity.
  apply binary_normalize_valid. reflexivity.
Qed.

Lemma opp_valid (a : float) : F32.valid a = true -> F32.valid (F32.opp a) = true.
Proof. destruct a; intros H; exact H. Qed.

Lemma shl_pos (m k : positive) : Pos.iter xO m k = (m * 2 ^ k)%positive.
Proof.
  apply Pos2Z.inj. rewrite shl_value, Pos2Z.inj_mul, Pos2Z.inj_pow. reflexivity.
Qed.

(** Rounding a mantissa whose low bits are zero, without realignment. *)
Lemma binary_round_aux_shr (prec emax : Z) (sx : bool) (q k : positive) (e : Z) :
  fexp prec emax (Zpos (digits2_pos q) + Zpos k + e) = e + Zpos k ->
  binary_round_aux prec emax sx (Zpos (Pos.iter xO q k)) e loc_Exact
  = if e + Zpos k <=? emax - prec
    then S754_finite sx q (e + Zpos k)
    else S754_infinity sx.
Proof.
  intros H.
  rewrite <- (binary_round_shr prec emax sx q k e H).
  unfold binary_round, shl_align. rewrite digits_shl, H.
  replace (e + Zpos k - e) with (Zpos k) by lia. reflexivity.
Qed.

(** [x * -1] is the opposite of [x], exactly. *)
Lemma negate_opp (a : float) : F32.valid a = true -> negate a = F32.opp a.
Proof.
  destruct a as [s | s | | s m e]; intros Hv.
  - destruct s; reflexivity.
  - destruct s; reflexivity.
  - reflexivity.
  - unfold F32.valid, F32.prec, F32.emax in Hv. cbn [valid_binary] in Hv.
    unfold bounded, canonical_mantissa in Hv.
    apply andb_true_iff in Hv. destruct Hv as [Hc He].
    apply Z.eqb_eq in Hc. apply Z.leb_le in He.
    unfold negate.
    replace (F32.of_Z (-1)) with (S754_finite true 8388608 (-23))
      by (vm_compute; reflexivity).
    unfold F32.mul, F32.prec, F32.emax. cbn [SFmul F32.opp SFopp].
    replace (m * 8388608)%positive with (Pos.iter xO m 23)
      by (rewrite shl_pos; reflexivity).
    rewrite (binary_round_aux_shr 24 128 (xorb s true) m 23 (e + -23)) by
      (replace (Zpos (digits2_pos m) + 23 + (e + -23)) with (Zpos (digits2_pos m) + e) by lia;
       rewrite Hc; lia).
    replace (e + -23 + 23) with e by lia.
    replace (e <=? 128 - 24) with true by (symmetry; apply Z.leb_le; lia).
    destruct s; reflexivity.
Qed.

(** A rounding overflows only from the top binade. *)
Lemma binary_round_aux_finite (prec emax : Z) (sx : bool) (m : positive) (e : Z)
    (l : location) :
  0 < prec ->
  e <= fexp prec emax (Zpos (digits2_pos m) + e) ->
  fexp prec emax (Zpos (digits2_pos m) + e) + 1 <= emax - prec ->
  is_finite (binary_round_aux prec emax sx (Zpos m) e l) = true.
Proof.
  intros Hprec He Hmax. unfold binary_round_aux.
  destruct (shr_fexp_spec prec emax m e l He) as [Hm1 He1].
  set (d := Zpos (digits2_pos m)) in *.
  set (t := fexp prec emax (d + e)) in *.
  destruct (shr_fexp prec emax (Zpos m) e l) as [mrs1 e1].
  cbn [fst snd] in Hm1, He1. subst e1.
  pose proof (round_nearest_even_bounds (shr_m mrs1) (loc_of_shr_record mrs1)) as Hr.
  set (m2 := round_nearest_even (shr_m mrs1) (loc_of_shr_record mrs1)) in *.
  assert (Ht : t = Z.max (d + e - prec) (emin prec emax)) by reflexivity.
  pose proof (digits_bounds m) as [Bl Bu]. fold d in Bl, Bu.
  assert (Hk : 0 < 2 ^ (t - e)) by (apply Z.pow_pos_nonneg; lia).
  assert (F1 : shr_m mrs1 < 2 ^ prec).
  { rewrite Hm1. apply Z.div_lt_upper_bound; [exact Hk|].
    rewrite <- Z.pow_add_r by lia.
    apply Z.lt_le_trans with (1 := Bu). apply Z.pow_le_mono_r; lia. }
  assert (F0 : 0 <= shr_m mrs1).
  { rewrite Hm1. apply Z.div_pos; lia. }
  destruct m2 as [|q|q] eqn:Em2; [| |lia].
  - unfold shr_fexp. cbn [Zdigits2 shr_record_of_loc].
    assert (Hn : fexp prec emax (0 + t) - t <= 0).
    { rewrite fexp_spec. lia. }
    unfold shr. destruct (fexp prec emax (0 + t) - t); try lia; reflexivity.
  - set (d2 := Zpos (digits2_pos q)).
    unfold shr_fexp. cbn [Zdigits2 shr_record_of_loc]. fold d2.
    assert (Hd2 : d2 <= prec + 1).
    { apply digits_le; [lia|]. rewrite Z.pow_add_r by lia.
      change (2 ^ 1) with 2. lia. }
    assert (Hn : fexp prec emax (d2 + t) - t <= 1).
    { rewrite fexp_spec. lia. }
    destruct (fexp prec emax (d2 + t) - t) as [|p|p] eqn:En.
    + cbn [shr shr_m fst].
      replace (t <=? emax - prec) with true by (symmetry; apply Z.leb_le; lia).
      reflexivity.
    + assert (p = 1%positive) by lia. subst p.
      cbn [shr iter_pos fst].
      pose proof (shr_1_div {| shr_m := Zpos q; shr_r := false; shr_s := false |})
        as Hs.
      cbn [shr_m] in Hs. specialize (Hs ltac:(lia)).
      assert (0 <= Zpos q / 2) by (apply Z.div_pos; lia).
      destruct (shr_m (shr_1 _)) as [|q3|q3]; [reflexivity | | lia].
      replace (t + 1 <=? emax - prec) with true by (symmetry; apply Z.leb_le; lia).
      reflexivity.
    + cbn [shr shr_m fst].
      replace (t <=? emax - prec) with true by (symmetry; apply Z.leb_le; lia).
      reflexivity.
Qed.

Lemma binary_round_finite (prec emax : Z) (sx : bool) (m : positive) (e : Z) :
  0 < prec ->
  fexp prec emax (Zpos (digits2_pos m) + e) + 1 <= emax - prec ->
  is_finite (binary_round prec emax sx m e) = true.
Proof.
  intros Hprec Hmax. unfold binary_round, shl_align.
  set (d := Zpos (digits2_pos m)) in *.
  set (t := fexp prec emax (d + e)) in *.
  destruct (t - e) as [|p|p] eqn:E.
  - apply binary_round_aux_finite; fold d; fold t; try assumption; lia.
  - apply binary_round_aux_finite; fold d; fold t; try assumption; lia.
  - assert (Hd : Zpos (digits2_pos (Pos.iter xO m p)) + t = d + e).
    { rewrite digits_shl. fold d. lia. }
    apply binary_round_aux_finite; rewrite ?Hd; fold t; try assumption; lia.
Qed.

(** The conversion of a nonzero 32-bit integer, signed or unsigned, is a
    nonzero finite [float] of the same sign. *)
Lemma of_Z_finite (n : Z) :
  n <> 0 -> - 2 ^ 32 < n < 2 ^ 32 ->
  exists m e, F32.of_Z n = S754_finite (n <? 0) m e.
Proof.
  intros Hn Hr.
  assert (H : forall (s : bool) (p : positive), Zpos p < 2 ^ 32 ->
            exists m e, binary_round F32.prec F32.emax s p 0 = S754_finite s m e).
  { intros s p Hp.
    pose proof (binary_round_rounded F32.prec F32.emax eq_refl s p 0) as R.
    pose proof (binary_round_finite F32.prec F32.emax s p 0 eq_refl) as Fin.
    assert (Hd : Zpos (digits2_pos p) <= 32) by (apply digits_le; [lia | exact Hp]).
    destruct (binary_round F32.prec F32.emax s p 0) as [sz | sz | | sz mz ez].
    - cbn [rounded] in R. unfold emin, F32.prec, F32.emax in R. lia.
    - cbn [is_finite] in Fin. 
      assert (false = true); [|discriminate].
      apply Fin. rewrite fexp_spec. unfold emin, F32.prec, F32.emax. lia.
    - destruct R.
    - destruct R as [-> _]. eauto. }
  unfold F32.of_Z. destruct n as [|p|p]; [contradiction | |]; cbn [binary_normalize].
  - apply H. lia.
  - apply H. lia.
Qed.

(** A finite nonzero number divided by itself is 1. *)
Lemma div_self (sa sb : bool) (m : positive) (e : Z) :
  F32.div (S754_finite sa m e) (S754_finite sb m e)
  = if xorb sa sb then F32.of_Z (-1) else F32.of_Z 1.
Proof.
  unfold F32.div, F32.prec, F32.emax. cbn [SFdiv].
  unfold SFdiv_core_binary. cbn [Zdigits2].
  replace (Zpos (digits2_pos m) + e - (Zpos (digits2_pos m) + e)) with 0 by lia.
  replace (e - e) with 0 by lia.
  change (Z.min (fexp 24 128 0) 0) with (-24).
  change (0 - -24) with 24.
  cbv beta iota zeta.
  rewrite Z.shiftl_mul_pow2 by lia.
  assert (Hd : Z.div_eucl (Zpos m * 2 ^ 24) (Zpos m) = (2 ^ 24, 0)).
  { pose proof (Z.div_eucl_eq (Zpos m * 2 ^ 24) (Zpos m) ltac:(lia)) as Heq.
    pose proof (Z.mod_pos_bound (Zpos m * 2 ^ 24) (Zpos m) ltac:(lia)) as Hb.
    unfold Z.modulo in Hb.
    assert (Hq : (Zpos m * 2 ^ 24) / Zpos m = 2 ^ 24).
    { rewrite Z.mul_comm. apply Z.div_mul. lia. }
    unfold Z.div in Hq.
    destruct (Z.div_eucl (Zpos m * 2 ^ 24) (Zpos m)) as [q r].
    cbn [fst snd] in *. subst q. f_equal. lia. }
  rewrite Hd.
  assert (Hl : new_location (Zpos m) 0 = loc_Exact).
  { unfold new_location, new_location_even, new_location_odd.
    destruct (Z.even (Zpos m)); reflexivity. }
  rewrite Hl. destruct sa, sb; vm_compute; reflexivity.
Qed.

Lemma SFadd_valid (prec emax : Z) (a b : spec_float) :
  0 < prec ->
  valid_binary prec emax a = true -> valid_binary prec emax b = true ->
  valid_binary prec emax (SFadd prec emax a b) = true.
Proof.
  intros Hprec Ha Hb.
  destruct a as [sa | sa | | sa ma ea], b as [sb | sb | | sb mb eb];
    cbn [SFadd]; try reflexivity; try assumption;
    try (destruct sa, sb; reflexivity).
  apply binary_normalize_valid. exact Hprec.
Qed.

Lemma rounded_sign (prec emax : Z) (sx : bool) (e : Z) (r : spec_float) :
  rounded prec emax sx e r ->
  if sx then SFleb r (S754_zero false) = true
  else SFleb (S754_zero false) r = true.
Proof.
  destruct r as [s | s | | s m e']; cbn [rounded].
  - intros _. destruct sx; reflexivity.
  - intros ->. destruct sx; reflexivity.
  - intros [].
  - intros [-> _]. destruct sx; reflexivity.
Qed.

(** *** Arrays *)

Lemma to_uint_small (n : Z) : 0 <= n < 2 ^ 32 -> to_uint n = n.
Proof. intros H. unfold to_uint, uint_mod. apply Z.mod_small. exact H. Qed.

Lemma update_app {A : Type} (p : list A) (c v : A) (r : list A) :
  update (p ++ c :: r) (length p) v = p ++ v :: r.
Proof. induction p as [|h p IH]; cbn; [reflexivity | now rewrite IH]. Qed.

Lemma update_length {A : Type} (l : list A) (n : nat) (v : A) :
  length (update l n v) = length l.
Proof.
  revert n. induction l as [|h l IH]; intros [|n]; cbn; try reflexivity.
  now rewrite IH.
Qed.

Lemma nth_error_update {A : Type} (l : list A) (n j : nat) (v : A) :
  (n < length l)%nat ->
  nth_error (update l n v) j = if Nat.eqb j n then Some v else nth_error l j.
Proof.
  revert n j. induction l as [|h l IH]; intros [|n] [|j] H; cbn in *;
    try lia; try reflexivity.
  apply IH. lia.
Qed.

Lemma store_at {A : Type} (p : array A) (c : option A) (r : array A) (i : Z) (v : A) :
  Z.of_nat (length p) = i ->
  store (p ++ c :: r) i v = Done (p ++ Some v :: r).
Proof.
  intros H. unfold store.
  rewrite length_app. cbn [length].
  replace (0 <=? i) with true by (symmetry; apply Z.leb_le; lia).
  replace (i <? Z.of_nat (length p + S (length r))) with true
    by (symmetry; apply Z.ltb_lt; lia).
  cbn [andb]. rewrite <- H, Nat2Z.id, update_app. reflexivity.
Qed.

Lemma store_next {A : Type} (p : array A) (b c : option A) (r : array A)
    (i : Z) (v : A) :
  Z.of_nat (length p) + 1 = i ->
  store (p ++ b :: c :: r) i v = Done (p ++ b :: Some v :: r).
Proof.
  intros H.
  change (p ++ b :: c :: r) with (p ++ [b] ++ c :: r).
  change (p ++ b :: Some v :: r) with (p ++ [b] ++ Some v :: r).
  rewrite !app_assoc. apply store_at. rewrite length_app. cbn [length]. lia.
Qed.

Lemma store_third {A : Type} (p : array A) (a b c : option A) (r : array A)
    (i : Z) (v : A) :
  Z.of_nat (length p) + 2 = i ->
  store (p ++ a :: b :: c :: r) i v = Done (p ++ a :: b :: Some v :: r).
Proof.
  intros H.
  change (p ++ a :: b :: c :: r) with (p ++ [a; b] ++ c :: r).
  change (p ++ a :: b :: Some v :: r) with (p ++ [a; b] ++ Some v :: r).
  rewrite !app_assoc. apply store_at. rewrite length_app. cbn [length]. lia.
Qed.

Lemma store_inside {A : Type} (a : array A) (i : Z) (v : A) :
  0 <= i < Z.of_nat (length a) ->
  exists a', store a i v = Done a' /\ length a' = length a.
Proof.
  intros H. unfold store.
  replace (0 <=? i) with true by (symmetry; apply Z.leb_le; lia).
  replace (i <? Z.of_nat (length a)) with true by (symmetry; apply Z.ltb_lt; lia).
  eexists. split; [reflexivity | apply update_length].
Qed.

Lemma store_outside {A : Type} (a : array A) (i : Z) (v : A) :
  Z.of_nat (length a) <= i -> store a i v = OutOfBounds i (length a).
Proof.
  intros H. unfold store.
  replace (i <? Z.of_nat (length a)) with false by (symmetry; apply Z.ltb_ge; lia).
  rewrite andb_false_r. reflexivity.
Qed.

Lemma store_length {A : Type} (a a' : array A) (i : Z) (v : A) :
  store a i v = Done a' -> length a' = length a.
Proof.
  unfold store. destruct (_ && _); [|discriminate].
  intros [= <-]. apply update_length.
Qed.

Lemma cell_nth {A : Type} (a : array A) (i : Z) (n : nat) (c : option A) :
  Z.to_nat i = n -> nth_error a n = Some c -> cell a i = c.
Proof. intros <- H. unfold cell. rewrite H. reflexivity. Qed.

Lemma cell_shift {A : Type} (a : array A) (i : Z) :
  cell a (Z.of_nat (Z.to_nat i)) = cell a i.
Proof. unfold cell. rewrite Nat2Z.id. reflexivity. Qed.

Lemma cell_in_range {A : Type} (a : array A) (i : Z) (v : A) :
  cell a i = Some v -> (Z.to_nat i < length a)%nat.
Proof.
  unfold cell. intros H. apply nth_error_Some.
  destruct (nth_error a (Z.to_nat i)); discriminate.
Qed.

Lemma firstn_whole {A : Type} (l : list A) (n : Z) :
  n = Z.of_nat (length l) -> firstn (Z.to_nat n) l = l.
Proof. intros ->. rewrite Nat2Z.id. apply firstn_all. Qed.

(** *** The circle model *)

Section CircleFacts.
Variables atanf cosf sinf : float -> float.

Lemma circleLoop_run (n : Z) (radius pi : float) (count : nat) :
  forall (i : Z) (theta : float) (pv : array float) (pi' : array Z),
    0 <= i -> i + Z.of_nat count = n -> 3 * n < 2 ^ 32 ->
    Z.of_nat (length pv) = 2 * (i + 1) ->
    Z.of_nat (length pi') = 3 * i ->
    circleLoop cosf sinf (S count) n radius pi i theta
      (pv ++ repeat None (2 * count)) (pi' ++ repeat None (3 * count))
    = Done (pv ++ ring cosf sinf radius
                    (F32.div (F32.mul (F32.of_Z 2) pi) (F32.of_Z n)) count theta,
            pi' ++ fan count i).
Proof.
  induction count as [|count IH]; intros i theta pv px Hi Hn Hmax Hv Hx.
  - cbn [circleLoop].
    replace (i <? n) with false by (symmetry; apply Z.ltb_ge; lia).
    reflexivity.
  - remember (S count) as fuel eqn:Ef. cbn [circleLoop]. subst fuel.
    replace (i <? n) with true by (symmetry; apply Z.ltb_lt; lia).
    assert (U1 : uadd i 1 = i + 1) by (apply to_uint_small; lia).
    assert (U2 : uadd i 2 = i + 2) by (apply to_uint_small; lia).
    assert (M2 : umul (i + 1) 2 = 2 * (i + 1)).
    { unfold umul. rewrite to_uint_small; lia. }
    assert (M3 : umul i 3 = 3 * i).
    { unfold umul. rewrite to_uint_small; lia. }
    assert (A0 : forall a, 0 <= a < 2 ^ 32 -> uadd a 0 = a).
    { intros a Ha. unfold uadd. rewrite Z.add_0_r. apply to_uint_small. exact Ha. }
    assert (A1 : uadd (3 * i) 1 = 3 * i + 1) by (apply to_uint_small; lia).
    assert (A2 : uadd (3 * i) 2 = 3 * i + 2) by (apply to_uint_small; lia).
    assert (B1 : uadd (2 * (i + 1)) 1 = 2 * (i + 1) + 1) by (apply to_uint_small; lia).
    rewrite U1, U2, M2, M3, A1, A2, B1, !A0 by lia.
    replace (2 * S count)%nat with (S (S (2 * count))) by lia.
    replace (3 * S count)%nat with (S (S (S (3 * count)))) by lia.
    cbn [repeat].
    rewrite (store_at pv) by exact Hv. cbn [bind].
    rewrite (store_next pv) by lia. cbn [bind].
    rewrite (store_at px) by exact Hx. cbn [bind].
    rewrite (store_next px) by lia. cbn [bind].
    rewrite (store_third px) by lia. cbn [bind].
    change (pv ++ Some (F32.mul radius (cosf theta))
               :: Some (F32.mul radius (sinf theta)) :: repeat None (2 * count))
      with (pv ++ [Some (F32.mul radius (cosf theta));
                   Some (F32.mul radius (sinf theta))] ++ repeat None (2 * count)).
    change (px ++ Some 0 :: Some (i + 1) :: Some (i + 2) :: repeat None (3 * count))
      with (px ++ [Some 0; Some (i + 1); Some (i + 2)] ++ repeat None (3 * count)).
    rewrite !app_assoc.
    rewrite IH; try lia.
    + rewrite <- !app_assoc. reflexivity.
    + rewrite length_app. cbn [length]. unfold array, float in *. lia.
    + rewrite length_app. cbn [length]. lia.
Qed.

Lemma fan_length (count : nat) (i : Z) : length (fan count i) = (3 * count)%nat.
Proof.
  revert i. induction count as [|count IH]; intros i; [reflexivity|].
  cbn [fan length]. rewrite IH. lia.
Qed.

Lemma ring_length (radius step : float) (count : nat) (theta : float) :
  length (ring cosf sinf radius step count theta) = (2 * count)%nat.
Proof.
  revert theta. induction count as [|count IH]; intros theta; [reflexivity|].
  cbn [ring length]. rewrite IH. lia.
Qed.

(** What a call with at least one triangle returns. *)
Lemma gen2DCircleArray_run (n : Z) (radius : float) :
  1 <= n -> 3 * n < 2 ^ 32 ->
  gen2DCircleArray atanf cosf sinf n radius
  = Done (Some (F32.of_Z 0) :: Some (F32.of_Z 0)
            :: ring cosf sinf radius (angleStep atanf n) (Z.to_nat n) (F32.of_Z 0),
          update (fan (Z.to_nat n) 0) (Z.to_nat (3 * n - 1)) (Some 1)).
Proof.
  intros Hn Hmax. unfold gen2DCircleArray.
  assert (U1 : uadd n 1 = n + 1) by (apply to_uint_small; lia).
  assert (M2 : umul (n + 1) 2 = 2 * (n + 1)).
  { unfold umul. rewrite to_uint_small; lia. }
  assert (M3 : umul n 3 = 3 * n).
  { unfold umul. rewrite to_uint_small; lia. }
  assert (S1 : usub n 1 = n - 1) by (apply to_uint_small; lia).
  assert (M4 : umul (n - 1) 3 = 3 * (n - 1)).
  { unfold umul. rewrite to_uint_small; lia. }
  assert (A2 : uadd (3 * (n - 1)) 2 = 3 * n - 1).
  { unfold uadd. rewrite to_uint_small; lia. }
  rewrite U1, M2, M3, S1, M4, A2. unfold newArray.
  replace (Z.to_nat (2 * (n + 1))) with (S (S (2 * Z.to_nat n))) by lia.
  replace (Z.to_nat (3 * n)) with (3 * Z.to_nat n)%nat by lia.
  cbn [repeat].
  rewrite (store_at [] None _ 0 (F32.of_Z 0) eq_refl
           : store (None :: None :: _) 0 _ = _).
  cbn [bind app].
  rewrite (store_next [] (Some (F32.of_Z 0)) None _ 1 (F32.of_Z 0) eq_refl
           : store (_ :: None :: _) 1 _ = _).
  cbn [bind app].
  pose proof (circleLoop_run n radius (F32.mul (F32.of_Z 4) (atanf (F32.of_Z 1)))
                (Z.to_nat n) 0 (F32.of_Z 0)
                [Some (F32.of_Z 0); Some (F32.of_Z 0)] []) as L.
  cbn [app] in L. unfold array, float in *. rewrite L by (cbn [length]; lia). clear L.
  cbn [bind fst snd]. unfold store.
  rewrite fan_length.
  replace (0 <=? 3 * n - 1) with true by (symmetry; apply Z.leb_le; lia).
  replace (3 * n - 1 <? Z.of_nat (3 * Z.to_nat n)) with true
    by (symmetry; apply Z.ltb_lt; lia).
  reflexivity.
Qed.

Lemma nth_error_ring (n : Z) (radius : float) (count : nat) :
  forall k j : nat, (j < count)%nat ->
    nth_error (ring cosf sinf radius (angleStep atanf n) count (angle atanf n k))
              (2 * j)
    = Some (Some (F32.mul radius (cosf (angle atanf n (k + j)))))
    /\ nth_error (ring cosf sinf radius (angleStep atanf n) count (angle atanf n k))
                 (2 * j + 1)
       = Some (Some (F32.mul radius (sinf (angle atanf n (k + j))))).
Proof.
  induction count as [|count IH]; intros k j Hj; [lia|].
  destruct j as [|j].
  - rewrite Nat.add_0_r. split; reflexivity.
  - replace (2 * S j)%nat with (S (S (2 * j))) by lia.
    cbn [ring Nat.add nth_error].
    change (F32.add (angle atanf n k) (angleStep atanf n))
      with (angle atanf n (S k)).
    replace (k + S j)%nat with (S k + j)%nat by lia.
    apply IH. lia.
Qed.

Lemma ring_placed (n : Z) (radius : float) :
  isRing atanf cosf sinf n radius
    (Some (F32.of_Z 0) :: Some (F32.of_Z 0)
       :: ring cosf sinf radius (angleStep atanf n) (Z.to_nat n) (F32.of_Z 0)).
Proof.
  split; [reflexivity|]. split; [reflexivity|]. intros j Hj.
  destruct (nth_error_ring n radius (Z.to_nat n) 0 (Z.to_nat j) ltac:(lia))
    as [Hc Hs].
  split.
  - apply (cell_nth _ _ (S (S (2 * Z.to_nat j)))); [lia | exact Hc].
  - apply (cell_nth _ _ (S (S (2 * Z.to_nat j + 1)))); [lia | exact Hs].
Qed.

End CircleFacts.

Lemma nth_error_fan (count : nat) :
  forall (i : Z) (j : nat), (j < count)%nat ->
    nth_error (fan count i) (3 * j) = Some (Some 0)
    /\ nth_error (fan count i) (3 * j + 1) = Some (Some (i + Z.of_nat j + 1))
    /\ nth_error (fan count i) (3 * j + 2) = Some (Some (i + Z.of_nat j + 2)).
Proof.
  induction count as [|count IH]; intros i j Hj; [lia|].
  destruct j as [|j].
  - cbn [fan Nat.mul Nat.add nth_error Z.of_nat]. rewrite Z.add_0_r.
    repeat split.
  - replace (3 * S j)%nat with (S (S (S (3 * j)))) by lia.
    cbn [fan Nat.add nth_error].
    replace (i + Z.of_nat (S j) + 1) with (i + 1 + Z.of_nat j + 1) by lia.
    replace (i + Z.of_nat (S j) + 2) with (i + 1 + Z.of_nat j + 2) by lia.
    apply IH. lia.
Qed.

(** The indices of the circle as the triangle fan. *)
Lemma fan_closed (n : Z) :
  1 <= n -> isFan n (update (fan (Z.to_nat n) 0) (Z.to_nat (3 * n - 1)) (Some 1)).
Proof.
  intros Hn j Hj.
  destruct (nth_error_fan (Z.to_nat n) 0 (Z.to_nat j) ltac:(lia)) as (H0 & H1 & H2).
  assert (Hlen : (Z.to_nat (3 * n - 1) < length (fan (Z.to_nat n) 0))%nat).
  { rewrite fan_length. lia. }
  repeat split.
  - apply (cell_nth _ _ (3 * Z.to_nat j)); [lia|].
    rewrite nth_error_update by exact Hlen.
    replace (Nat.eqb (3 * Z.to_nat j) (Z.to_nat (3 * n - 1))) with false
      by (symmetry; apply Nat.eqb_neq; lia).
    exact H0.
  - apply (cell_nth _ _ (3 * Z.to_nat j + 1)); [lia|].
    rewrite nth_error_update by exact Hlen.
    replace (Nat.eqb (3 * Z.to_nat j + 1) (Z.to_nat (3 * n - 1))) with false
      by (symmetry; apply Nat.eqb_neq; lia).
    rewrite H1. do 2 f_equal. lia.
  - apply (cell_nth _ _ (3 * Z.to_nat j + 2)); [lia|].
    rewrite nth_error_update by exact Hlen.
    destruct (Z.eqb_spec j (n - 1)) as [E | E].
    + replace (Nat.eqb (3 * Z.to_nat j + 2) (Z.to_nat (3 * n - 1))) with true
        by (symmetry; apply Nat.eqb_eq; lia).
      reflexivity.
    + replace (Nat.eqb (3 * Z.to_nat j + 2) (Z.to_nat (3 * n - 1))) with false
        by (symmetry; apply Nat.eqb_neq; lia).
      rewrite H2. do 2 f_equal. lia.
Qed.

(** A position of the index array, by triangle and corner. *)
Lemma fan_cell (n : Z) (indices : array Z) (p : Z) :
  isFan n indices -> 0 <= p < 3 * n ->
  exists t, cell indices p = Some t /\ 0 <= t <= n.
Proof.
  intros F Hp.
  destruct (F (p / 3) ltac:(split; [apply Z.div_pos; lia
                                    | apply Z.div_lt_upper_bound; lia]))
    as (H0 & H1 & H2).
  pose proof (Z.div_mod p 3 ltac:(lia)) as Hd.
  pose proof (Z.mod_pos_bound p 3 ltac:(lia)) as Hm.
  assert (Hq : 0 <= p / 3 < n)
    by (split; [apply Z.div_pos; lia | apply Z.div_lt_upper_bound; lia]).
  assert (C : p mod 3 = 0 \/ p mod 3 = 1 \/ p mod 3 = 2) by lia.
  destruct C as [C | [C | C]].
  - exists 0. replace p with (3 * (p / 3)) at 1 by lia. split; [exact H0 | lia].
  - exists (p / 3 + 1). replace p with (3 * (p / 3) + 1) at 1 by lia.
    split; [exact H1 | lia].
  - exists (if p / 3 =? n - 1 then 1 else p / 3 + 2).
    replace p with (3 * (p / 3) + 2) at 1 by lia.
    split; [exact H2|]. destruct (Z.eqb_spec (p / 3) (n - 1)); lia.
Qed.

Lemma ring_cell (atanf cosf sinf : float -> float) (n : Z) (radius : float)
    (vertices : array float) (p : Z) :
  isRing atanf cosf sinf n radius vertices -> 0 <= p < 2 * (n + 1) ->
  cell vertices p <> None.
Proof.
  intros (H0 & H1 & R) Hp.
  destruct (Z.eq_dec p 0) as [-> | N0]; [rewrite H0; discriminate|].
  destruct (Z.eq_dec p 1) as [-> | N1]; [rewrite H1; discriminate|].
  pose proof (Z.div_mod p 2 ltac:(lia)) as Hd.
  pose proof (Z.mod_pos_bound p 2 ltac:(lia)) as Hm.
  assert (Hq : 1 <= p / 2 < n + 1)
    by (split; [apply Z.div_le_lower_bound; lia | apply Z.div_lt_upper_bound; lia]).
  destruct (R (p / 2 - 1) ltac:(lia)) as [Rc Rs].
  replace (p / 2 - 1 + 1) with (p / 2) in Rc, Rs by lia.
  assert (C : p mod 2 = 0 \/ p mod 2 = 1) by lia.
  destruct C as [C | C].
  - replace p with (2 * (p / 2)) at 1 by lia. rewrite Rc. discriminate.
  - replace p with (2 * (p / 2) + 1) at 1 by lia. rewrite Rs. discriminate.
Qed.

(** What a call with at least one triangle returns, in one statement. *)
Lemma gen2DCircleArray_returns (atanf cosf sinf : float -> float) (n : Z)
    (radius : float) :
  1 <= n -> 3 * n < 2 ^ 32 ->
  exists vertices indices,
    gen2DCircleArray atanf cosf sinf n radius = Done (vertices, indices)
    /\ Z.of_nat (length vertices) = 2 * (n + 1)
    /\ Z.of_nat (length indices) = 3 * n
    /\ isRing atanf cosf sinf n radius vertices
    /\ isFan n indices.
Proof.
  intros Hn Hmax. eexists. eexists. split.
  { apply gen2DCircleArray_run; assumption. }
  split; [|split; [|split]].
  - cbn [length]. rewrite ring_length. lia.
  - rewrite update_length, fan_length. lia.
  - apply ring_placed.
  - apply fan_closed. exact Hn.
Qed.

(** X1: called with at least one triangle (and few enough for
    [noTriangles * 3] not to wrap around in [unsigned int]),
    [gen2DCircleArray] returns, and the index array it returns is a closed
    triangle fan: triangle [j] is [(0, j + 1, j + 2)], except the last,
    which is [(0, noTriangles, 1)]. *)
Theorem circle_indices_form_fan (atanf cosf sinf : float -> float) (n : Z)
    (radius : float) :
  1 <= n -> 3 * n < 2 ^ 32 ->
  exists vertices indices,
    gen2DCircleArray atanf cosf sinf n radius = Done (vertices, indices)
    /\ isFan n indices.
Proof.
  intros Hn Hmax.
  destruct (gen2DCircleArray_returns atanf cosf sinf n radius Hn Hmax)
    as (v & ix & E & _ & _ & _ & F).
  exists v, ix. split; assumption.
Qed.

Lemma circle_indices_form_fan_witness :
  1 <= 50 /\ 3 * 50 < 2 ^ 32
  /\ exists vertices indices,
       exampleCircle = Done (vertices, indices) /\ isFan 50 indices.
Proof.
  split; [lia|]. split; [reflexivity|].
  apply circle_indices_form_fan; [lia | reflexivity].
Defined.

(** X2: on the same inputs the vertex array has [2 * (noTriangles + 1)]
    cells and the index array [3 * noTriangles]; every cell of both has
    been written, and every index stored is the number of one of the
    [noTriangles + 1] vertices. *)
Theorem circle_arrays_are_covered (atanf cosf sinf : float -> float) (n : Z)
    (radius : float) :
  1 <= n -> 3 * n < 2 ^ 32 ->
  exists vertices indices,
    gen2DCircleArray atanf cosf sinf n radius = Done (vertices, indices)
    /\ Z.of_nat (length vertices) = 2 * (n + 1)
    /\ Z.of_nat (length indices) = 3 * n
    /\ filled vertices /\ filled indices
    /\ forall p t, cell indices p = Some t -> 0 <= t <= n.
Proof.
  intros Hn Hmax.
  destruct (gen2DCircleArray_returns atanf cosf sinf n radius Hn Hmax)
    as (v & ix & E & Lv & Li & R & F).
  exists v, ix. split; [exact E|]. split; [exact Lv|]. split; [exact Li|].
  split; [|split].
  - intros p Hp. apply (ring_cell atanf cosf sinf n radius); [exact R | lia].
  - intros p Hp. destruct (fan_cell n ix p F ltac:(lia)) as (t & -> & _).
    discriminate.
  - intros p t Hc.
    pose proof (cell_in_range _ _ _ Hc) as Hr.
    rewrite <- cell_shift in Hc.
    destruct (fan_cell n ix (Z.of_nat (Z.to_nat p)) F ltac:(lia)) as (t' & Ht & Hb).
    rewrite Ht in Hc. injection Hc as <-. exact Hb.
Qed.

Lemma circle_arrays_are_covered_witness :
  1 <= 50 /\ 3 * 50 < 2 ^ 32
  /\ exists vertices indices,
       exampleCircle = Done (vertices, indices)
       /\ Z.of_nat (length vertices) = 2 * (50 + 1)
       /\ Z.of_nat (length indices) = 3 * 50
       /\ filled vertices /\ filled indices
       /\ forall p t, cell indices p = Some t -> 0 <= t <= 50.
Proof.
  split; [lia|]. split; [reflexivity|].
  apply circle_arrays_are_covered; [lia | reflexivity].
Defined.

(** X3: on the same inputs the vertex array starts with the centre
    [(0, 0)], and vertex [j + 1] is
    [(radius * cosf(theta), radius * sinf(theta))] for the angle [theta]
    that [j] additions of [2 * pi / noTriangles] to 0 give in [float],
    with [pi = 4 * atanf(1)]. *)
Theorem circle_vertices_on_ring (atanf cosf sinf : float -> float) (n : Z)
    (radius : float) :
  1 <= n -> 3 * n < 2 ^ 32 ->
  exists vertices indices,
    gen2DCircleArray atanf cosf sinf n radius = Done (vertices, indices)
    /\ isRing atanf cosf sinf n radius vertices.
Proof.
  intros Hn Hmax.
  destruct (gen2DCircleArray_returns atanf cosf sinf n radius Hn Hmax)
    as (v & ix & E & _ & _ & R & _).
  exists v, ix. split; assumption.
Qed.

Lemma circle_vertices_on_ring_witness :
  1 <= 50 /\ 3 * 50 < 2 ^ 32
  /\ exists vertices indices,
       exampleCircle = Done (vertices, indices)
       /\ isRing (fun a => a) (fun a => a) (fun a => a) 50 half vertices.
Proof.
  split; [lia|]. split; [reflexivity|].
  apply circle_vertices_on_ring; [lia | reflexivity].
Defined.

(** Called with no triangle, the function allocates an index array of no
    cell and skips the loop; the store that closes the fan,
    [indices[(noTriangles - 1) * 3 + 2] = 1], then goes to index
    [4294967295]: [noTriangles - 1] wraps around. *)
Lemma circle_without_triangles (atanf cosf sinf : float -> float)
    (radius : float) :
  gen2DCircleArray atanf cosf sinf 0 radius = OutOfBounds 4294967295 0.
Proof. reflexivity. Qed.

Section Overrun.
Variables atanf cosf sinf : float -> float.

(** With an index array too short for the triangles, the loop ends in a
    store outside an array. *)
Lemma circleLoop_overrun (n : Z) (radius pi : float) (count : nat) :
  forall (i : Z) (theta : float) (vertices : array float) (indices : array Z),
    0 <= i -> i + Z.of_nat count = n -> n < 2 ^ 32 ->
    Z.of_nat (length indices) < 2 ^ 32 ->
    i <= Z.of_nat (length indices) / 3 < n ->
    forall r, circleLoop cosf sinf (S count) n radius pi i theta vertices indices
              <> Done r.
Proof.
  induction count as [|count IH]; intros i theta v ix Hi Hn Hmax Hsize Hi0 r.
  - lia.
  - remember (S count) as fuel eqn:Ef. cbn [circleLoop]. subst fuel.
    replace (i <? n) with true by (symmetry; apply Z.ltb_lt; lia).
    set (size := Z.of_nat (length ix)) in *.
    pose proof (Z.div_mod size 3 ltac:(lia)) as Hd.
    pose proof (Z.mod_pos_bound size 3 ltac:(lia)) as Hm.
    assert (U1 : uadd i 1 = i + 1) by (apply to_uint_small; lia).
    assert (M3 : umul i 3 = 3 * i).
    { unfold umul. rewrite to_uint_small; lia. }
    rewrite U1, M3.
    destruct (store v (uadd (umul (i + 1) 2) 0) (F32.mul radius (cosf theta)))
      as [v1 | |]; cbn [bind]; try discriminate.
    destruct (store v1 (uadd (umul (i + 1) 2) 1) (F32.mul radius (sinf theta)))
      as [v2 | |]; cbn [bind]; try discriminate.
    (* the three index stores of the triangle *)
    assert (A0 : uadd (3 * i) 0 = 3 * i).
    { unfold uadd. rewrite Z.add_0_r. apply to_uint_small. lia. }
    rewrite A0.
    destruct (Z.le_gt_cases size (3 * i)) as [O0 | I0].
    { rewrite store_outside by (fold size; lia). discriminate. }
    destruct (store_inside ix (3 * i) 0 ltac:(fold size; lia)) as (x1 & -> & L1).
    cbn [bind].
    assert (A1 : uadd (3 * i) 1 = 3 * i + 1) by (apply to_uint_small; lia).
    rewrite A1.
    destruct (Z.le_gt_cases size (3 * i + 1)) as [O1 | I1].
    { rewrite store_outside by (rewrite L1; fold size; lia). discriminate. }
    destruct (store_inside x1 (3 * i + 1) (i + 1) ltac:(rewrite L1; fold size; lia))
      as (x2 & -> & L2).
    cbn [bind].
    assert (A2 : uadd (3 * i) 2 = 3 * i + 2) by (apply to_uint_small; lia).
    rewrite A2.
    destruct (Z.le_gt_cases size (3 * i + 2)) as [O2 | I2].
    { rewrite store_outside by (rewrite L2, L1; fold size; lia). discriminate. }
    destruct (store_inside x2 (3 * i + 2) (uadd i 2)
                ltac:(rewrite L2, L1; fold size; lia)) as (x3 & -> & L3).
    cbn [bind].
    apply IH; try lia.
    rewrite L3, L2, L1. fold size. lia.
Qed.

Lemma gen2DCircleArray_overrun (n : Z) (radius : float) :
  1 <= n < 2 ^ 32 -> 2 ^ 32 <= 3 * n ->
  forall r, gen2DCircleArray atanf cosf sinf n radius <> Done r.
Proof.
  intros Hn Hbig r. unfold gen2DCircleArray.
  destruct (store (newArray (umul (uadd n 1) 2)) 0 (F32.of_Z 0))
    as [v1 | |]; cbn [bind]; try discriminate.
  destruct (store v1 1 (F32.of_Z 0)) as [v2 | |]; cbn [bind]; try discriminate.
  assert (Hsize : 0 <= umul n 3 < 2 ^ 32).
  { unfold umul, to_uint, uint_mod. apply Z.mod_pos_bound. lia. }
  assert (Hlen : Z.of_nat (length (newArray (A:=Z) (umul n 3))) = umul n 3).
  { unfold newArray. rewrite repeat_length. lia. }
  pose proof (circleLoop_overrun n radius
                (F32.mul (F32.of_Z 4) (atanf (F32.of_Z 1))) (Z.to_nat n)
                0 (F32.of_Z 0) v2 (newArray (umul n 3))) as L.
  destruct (circleLoop cosf sinf (S (Z.to_nat n)) n radius _ 0 _ v2 _)
    as [r' | |]; cbn [bind]; try discriminate.
  exfalso. apply (L ltac:(lia) ltac:(lia) ltac:(lia)) with (r := r'); try reflexivity.
  - rewrite Hlen. lia.
  - rewrite Hlen. split; [apply Z.div_pos; lia|].
    apply Z.div_lt_upper_bound; lia.
Qed.

End Overrun.

(** X4: for an [unsigned int] number of triangles, [gen2DCircleArray]
    returns, all its stores being inside its two arrays, exactly when
    [1 <= noTriangles] and [3 * noTriangles < 2^32].  With no triangle the
    closing store [indices[(noTriangles - 1) * 3 + 2] = 1] falls outside
    the empty index array; with more triangles than that the sizes given
    to [new] wrap around and a store of the loop falls outside. *)
Theorem circle_returns_iff (atanf cosf sinf : float -> float) (n : Z)
    (radius : float) :
  0 <= n < 2 ^ 32 ->
  (exists vertices indices,
     gen2DCircleArray atanf cosf sinf n radius = Done (vertices, indices))
  <-> 1 <= n /\ 3 * n < 2 ^ 32.
Proof.
  intros Hn. split.
  - intros (v & ix & E).
    destruct (Z.eq_dec n 0) as [-> | N0].
    { rewrite circle_without_triangles in E. discriminate E. }
    split; [lia|].
    destruct (Z.lt_ge_cases (3 * n) (2 ^ 32)) as [H | H]; [exact H|].
    exfalso.
    exact (gen2DCircleArray_overrun atanf cosf sinf n radius ltac:(lia) H _ E).
  - intros [H1 H3].
    destruct (gen2DCircleArray_returns atanf cosf sinf n radius H1 H3)
      as (v & ix & E & _).
    exists v, ix. exact E.
Qed.

Lemma circle_returns_iff_witness :
  0 <= 1431655766 < 2 ^ 32
  /\ ((exists vertices indices,
         gen2DCircleArray (fun a => a) (fun a => a) (fun a => a)
           1431655766 half = Done (vertices, indices))
      <-> 1 <= 1431655766 /\ 3 * 1431655766 < 2 ^ 32).
Proof.
  split; [lia|]. apply circle_returns_iff. lia.
Defined.

(** *** The buffers of [main] *)

(** X5: for the ball, [main] hands to the position buffer exactly the
    vertex array that [gen2DCircleArray] returned and to the element
    buffer exactly its index array: every cell, and none beyond the end. *)
Theorem ball_buffers_take_whole_arrays (atanf cosf sinf : float -> float)
    (s : State) (n : Z) :
  1 <= n -> 3 * n < 2 ^ 32 ->
  exists vertices indices,
    gen2DCircleArray atanf cosf sinf n half = Done (vertices, indices)
    /\ ballBuffers atanf cosf sinf s n
       = Done (vertices, [Some (ballOffset s)], ballSizes, indices).
Proof.
  intros Hn Hmax.
  destruct (gen2DCircleArray_returns atanf cosf sinf n half Hn Hmax)
    as (v & ix & E & Lv & Li & _).
  exists v, ix. split; [exact E|].
  unfold ballBuffers. rewrite E. cbn [bind fst snd].
  assert (U : umul 2 (uadd n 1) = 2 * (n + 1)).
  { unfold umul, uadd. rewrite (to_uint_small (n + 1)) by lia.
    apply to_uint_small. lia. }
  assert (V : umul 3 n = 3 * n) by (apply to_uint_small; lia).
  unfold genBufferObject at 1. rewrite U, Lv, Z.leb_refl, <- Lv, firstn_whole
    by reflexivity.
  cbn [bind]. unfold genBufferObject at 3.
  rewrite V, Li, Z.leb_refl, <- Li, firstn_whole by reflexivity.
  reflexivity.
Qed.

Lemma ball_buffers_take_whole_arrays_witness :
  1 <= 50 /\ 3 * 50 < 2 ^ 32
  /\ exists vertices indices,
       exampleCircle = Done (vertices, indices)
       /\ ballBuffers (fun a => a) (fun a => a) (fun a => a) initialState 50
          = Done (vertices, [Some (ballOffset initialState)], ballSizes, indices).
Proof.
  split; [lia|]. split; [reflexivity|].
  apply ball_buffers_take_whole_arrays; [lia | reflexivity].
Defined.

(** X6: for the paddles, [main] makes the element buffer from [2 * 4]
    cells of [paddleIndices], which has six: the call reads past the end
    of the array.  The position buffer, made from [2 * 4] cells of the
    eight of [paddleVertices], takes that array whole. *)
Theorem paddle_elements_read_past_the_end (s : State) :
  genBufferObject (2 * 4) paddleVertices = Done paddleVertices
  /\ length paddleIndices = 6%nat
  /\ genBufferObject (2 * 4) paddleIndices = OutOfBounds 6 6
  /\ paddleBuffers s = OutOfBounds 6 6.
Proof. repeat split. Qed.

(** *** The projection matrix *)

Lemma shr_nonneg (r : shr_record) (e n : Z) :
  0 <= shr_m r -> 0 <= shr_m (fst (shr r e n)).
Proof.
  intros H. destruct n as [|p|p]; cbn [shr fst]; try exact H.
  rewrite iter_pos_nat. apply shr_iter_div. exact H.
Qed.

Lemma shr_fexp_nonneg (prec emax m e : Z) (l : location) :
  0 <= m -> 0 <= shr_m (fst (shr_fexp prec emax m e l)).
Proof.
  intros H. unfold shr_fexp. apply shr_nonneg.
  rewrite shr_record_of_loc_m. exact H.
Qed.

(** A rounding of a mantissa that is not negative is not a NaN. *)
Lemma binary_round_aux_not_nan (prec emax : Z) (sx : bool) (m e : Z)
    (l : location) :
  0 <= m -> is_nan (binary_round_aux prec emax sx m e l) = false.
Proof.
  intros H. unfold binary_round_aux.
  pose proof (shr_fexp_nonneg prec emax m e l H) as H1.
  destruct (shr_fexp prec emax m e l) as [mrs1 e1]. cbn [fst] in H1.
  pose proof (round_nearest_even_bounds (shr_m mrs1) (loc_of_shr_record mrs1)) as Hr.
  pose proof (shr_fexp_nonneg prec emax
                (round_nearest_even (shr_m mrs1) (loc_of_shr_record mrs1))
                e1 loc_Exact ltac:(lia)) as H2.
  destruct (shr_fexp prec emax _ e1 loc_Exact) as [mrs2 e2]. cbn [fst] in H2.
  destruct (shr_m mrs2) as [|q|q]; [reflexivity | | lia].
  destruct (e2 <=? emax - prec); reflexivity.
Qed.

(** A quotient of finite numbers other than 0 is not a NaN. *)
Lemma div_not_nan (sa sb : bool) (ma mb : positive) (ea eb : Z) :
  is_nan (F32.div (S754_finite sa ma ea) (S754_finite sb mb eb)) = false.
Proof.
  unfold F32.div. cbn [SFdiv]. unfold SFdiv_core_binary.
  set (m' := match _ - _ - _ with Z0 => _ | Zpos _ => _ | Zneg _ => _ end).
  assert (Hm : 0 <= m').
  { unfold m'. destruct (_ - _ - _) as [|p|p]; try lia.
    rewrite Z.shiftl_mul_pow2 by lia.
    assert (0 < 2 ^ Zpos p) by (apply Z.pow_pos_nonneg; lia). lia. }
  pose proof (Z.div_pos m' (Zpos mb) Hm ltac:(lia)) as Hq.
  unfold Z.div in Hq.
  destruct (Z.div_eucl m' (Zpos mb)) as [q r]. cbn [fst] in Hq.
  apply binary_round_aux_not_nan. exact Hq.
Qed.

(** X7: for a window whose width and height are not 0, the matrix that
    [framebufferSizeCallback] and [main] upload is the diagonal
    [(2 / width, 2 / height, -2, 1)] with the last row
    [(-1, -1, -1, 1)], entry for entry: the quotients [-(w + 0) / (w - 0)]
    are exactly [-1]. *)
Theorem window_projection_entries (width height : Z) :
  width <> 0 -> height <> 0 ->
  - 2 ^ 32 < width < 2 ^ 32 -> - 2 ^ 32 < height < 2 ^ 32 ->
  windowProjection width height
  = [ [ F32.div (F32.of_Z 2) (F32.of_Z width);
        F32.of_Z 0; F32.of_Z 0; F32.of_Z 0 ];
      [ F32.of_Z 0; F32.div (F32.of_Z 2) (F32.of_Z height);
        F32.of_Z 0; F32.of_Z 0 ];
      [ F32.of_Z 0; F32.of_Z 0; F32.of_Z (-2); F32.of_Z 0 ];
      [ F32.of_Z (-1); F32.of_Z (-1); F32.of_Z (-1); F32.of_Z 1 ] ].
Proof.
  intros Hw Hh Rw Rh.
  destruct (of_Z_finite width Hw Rw) as (mw & ew & Ew).
  destruct (of_Z_finite height Hh Rh) as (mh & eh & Eh).
  unfold windowProjection, setOrthographicProjection.
  rewrite Ew, Eh.
  change (F32.of_Z 0) with (S754_zero false).
  assert (Hs : forall s m e, F32.sub (S754_finite s m e) (S754_zero false)
                             = S754_finite s m e) by reflexivity.
  assert (Ha : forall s m e, F32.add (S754_finite s m e) (S754_zero false)
                             = S754_finite s m e) by reflexivity.
  assert (Hd : forall s m e, F32.div (F32.opp (S754_finite s m e)) (S754_finite s m e)
                             = F32.of_Z (-1)).
  { intros s m e. cbn [F32.opp SFopp]. rewrite div_self. destruct s; reflexivity. }
  rewrite !Hs, !Ha, !Hd.
  replace (F32.div (F32.opp (F32.of_Z 2)) (F32.sub (F32.of_Z 1) (S754_zero false)))
    with (F32.of_Z (-2)) by (vm_compute; reflexivity).
  replace (F32.div (F32.opp (F32.add (F32.of_Z 1) (S754_zero false)))
             (F32.sub (F32.of_Z 1) (S754_zero false)))
    with (F32.of_Z (-1)) by (vm_compute; reflexivity).
  reflexivity.
Qed.

Lemma window_projection_entries_witness :
  800 <> 0 /\ 600 <> 0
  /\ windowProjection 800 600
     = [ [ F32.div (F32.of_Z 2) (F32.of_Z 800);
           F32.of_Z 0; F32.of_Z 0; F32.of_Z 0 ];
         [ F32.of_Z 0; F32.div (F32.of_Z 2) (F32.of_Z 600);
           F32.of_Z 0; F32.of_Z 0 ];
         [ F32.of_Z 0; F32.of_Z 0; F32.of_Z (-2); F32.of_Z 0 ];
         [ F32.of_Z (-1); F32.of_Z (-1); F32.of_Z (-1); F32.of_Z 1 ] ].
Proof.
  split; [discriminate|]. split; [discriminate|].
  apply window_projection_entries; try discriminate; split; reflexivity.
Defined.

(** X8: the matrix uploaded for a window is free of NaNs exactly when
    neither the width nor the height is 0.  A width of 0, as reported for a
    minimised window, puts the NaN [-0 / 0] into the first entry of the
    last row, a height of 0 into the second. *)
Theorem projection_without_nan_iff (width height : Z) :
  - 2 ^ 32 < width < 2 ^ 32 -> - 2 ^ 32 < height < 2 ^ 32 ->
  Forall (Forall (fun a => is_nan a = false)) (windowProjection width height)
  <-> width <> 0 /\ height <> 0.
Proof.
  intros Rw Rh. split.
  - intros H.
    assert (Hrow : Forall (fun a => is_nan a = false)
                     [ F32.div (F32.opp (F32.add (F32.of_Z width) (F32.of_Z 0)))
                               (F32.sub (F32.of_Z width) (F32.of_Z 0));
                       F32.div (F32.opp (F32.add (F32.of_Z height) (F32.of_Z 0)))
                               (F32.sub (F32.of_Z height) (F32.of_Z 0));
                       F32.div (F32.opp (F32.add (F32.of_Z 1) (F32.of_Z 0)))
                               (F32.sub (F32.of_Z 1) (F32.of_Z 0));
                       F32.of_Z 1 ]).
    { rewrite Forall_forall in H. apply H.
      right. right. right. left. reflexivity. }
    rewrite Forall_forall in Hrow.
    split; intros ->.
    + specialize (Hrow _ (or_introl eq_refl)). discriminate Hrow.
    + specialize (Hrow _ (or_intror (or_introl eq_refl))). discriminate Hrow.
  - intros [Hw Hh].
    destruct (of_Z_finite width Hw Rw) as (mw & ew & Ew).
    destruct (of_Z_finite height Hh Rh) as (mh & eh & Eh).
    unfold windowProjection, setOrthographicProjection. rewrite Ew, Eh.
    replace (F32.of_Z 2) with (S754_finite false 8388608 (-22))
      by (vm_compute; reflexivity).
    change (F32.of_Z 0) with (S754_zero false).
    cbn [F32.sub SFsub F32.add SFadd F32.opp SFopp].
    repeat constructor; apply div_not_nan.
Qed.

Lemma projection_without_nan_iff_witness :
  - 2 ^ 32 < 800 < 2 ^ 32 /\ - 2 ^ 32 < 0 < 2 ^ 32
  /\ (Forall (Forall (fun a => is_nan a = false)) (windowProjection 800 0)
      <-> 800 <> 0 /\ 0 <> 0).
Proof.
  split; [split; reflexivity|]. split; [split; reflexivity|].
  apply projection_without_nan_iff; split; reflexivity.
Defined.

(** *** The window and the paddles *)

Lemma paddleCollisions_keeps (s : State) :
  paddleOffsets (paddleCollisions s) = paddleOffsets s
  /\ paddleVelocities (paddleCollisions s) = paddleVelocities s
  /\ scrWidth (paddleCollisions s) = scrWidth s
  /\ initBallVelocity (paddleCollisions s) = initBallVelocity s.
Proof.
  rewrite paddleCollisions_classify.
  destruct (eligible s); [|repeat split].
  destruct (classify s); repeat split.
Qed.

Lemma beforePaddles_keeps (i : Input) (s : State) :
  paddleOffsets (beforePaddles i s) = paddleOffsets (processInput i s)
  /\ paddleVelocities (beforePaddles i s) = paddleVelocities (processInput i s)
  /\ scrWidth (beforePaddles i s) = scrWidth s
  /\ initBallVelocity (beforePaddles i s) = initBallVelocity s.
Proof.
  unfold beforePaddles.
  destruct (scoring_frame (wallCollisions (countFrame (processInput i s))))
    as (_ & -> & -> & -> & _ & ->).
  destruct (wallCollisions_ball (countFrame (processInput i s)))
    as (_ & _ & -> & -> & _ & -> & _ & ->).
  destruct (countFrame_ball (processInput i s))
    as (_ & _ & -> & -> & -> & _ & ->).
  repeat split.
Qed.

(** The columns of the paddles and the width across a frame. *)
Lemma frame_columns (i : Input) (s : State) :
  x (fst (paddleOffsets (frame i s))) = x (fst (paddleOffsets s))
  /\ x (snd (paddleOffsets (frame i s)))
     = match resized i with
       | Some (w, _) => F32.sub (F32.of_Z w) (F32.of_Z 35)
       | None => x (snd (paddleOffsets s))
       end
  /\ scrWidth (frame i s)
     = match resized i with
       | Some (w, _) => to_uint w
       | None => scrWidth s
       end.
Proof.
  set (m := paddleCollisions (beforePaddles i s)).
  assert (Hm : x (fst (paddleOffsets m)) = x (fst (paddleOffsets s))
               /\ x (snd (paddleOffsets m)) = x (snd (paddleOffsets s))
               /\ scrWidth m = scrWidth s).
  { unfold m.
    destruct (paddleCollisions_keeps (beforePaddles i s)) as (-> & _ & -> & _).
    destruct (beforePaddles_keeps i s) as (-> & _ & -> & _).
    repeat split. }
  destruct Hm as (H0 & H1 & HW).
  rewrite frame_unfold. fold m. unfold newFrame.
  destruct (resized i) as [[w h]|]; cbn; rewrite ?H0, ?H1, ?HW; repeat split.
Qed.

Lemma frame_paddleVelocities (i : Input) (s : State) :
  paddleVelocities (frame i s) = paddleVelocities (processInput i s).
Proof.
  rewrite frame_unfold.
  set (m := paddleCollisions (beforePaddles i s)).
  assert (Hm : paddleVelocities m = paddleVelocities (processInput i s)).
  { unfold m.
    destruct (paddleCollisions_keeps (beforePaddles i s)) as (_ & -> & _).
    apply beforePaddles_keeps. }
  unfold newFrame. destruct (resized i) as [[w h]|]; cbn; exact Hm.
Qed.

Lemma frame_initBallVelocity (i : Input) (s : State) :
  initBallVelocity (frame i s) = initBallVelocity s.
Proof.
  rewrite frame_unfold.
  destruct (newFrame_ball i
    (updatePositions (dt i) (paddleCollisions (beforePaddles i s))))
    as (_ & _ & _ & _ & _ & ->).
  destruct (updatePositions_ball (dt i) (paddleCollisions (beforePaddles i s)))
    as (_ & _ & _ & ->).
  destruct (paddleCollisions_keeps (beforePaddles i s)) as (_ & _ & _ & ->).
  apply beforePaddles_keeps.
Qed.

Lemma movePaddle_velocity (up down : bool) (lim y0 : float) :
  In (snd (movePaddle up down lim y0)) paddleVelocityValues.
Proof.
  unfold movePaddle, pressUp, pressDown, paddleVelocityValues.
  destruct up, down; cbn [fst snd];
    repeat match goal with
           | |- context [if ?c then _ else _] => destruct c; cbn [fst snd]
           end;
    cbn [In]; auto.
Qed.

(** X9: over a run from the initial state in which every size reported
    for the framebuffer is a pair of non-negative [int]s, the left paddle
    stays in the column [x = 35] and the right paddle in the column
    [scrWidth - 35]: no statement writes the first, and only
    [framebufferSizeCallback] writes the second, together with
    [scrWidth]. *)
Theorem paddles_keep_their_columns (ins : list Input) :
  Forall sizeReported ins ->
  let s := renderLoop ins initialState in
  x (fst (paddleOffsets s)) = F32.of_Z 35
  /\ x (snd (paddleOffsets s)) = F32.sub (F32.of_Z (scrWidth s)) (F32.of_Z 35).
Proof.
  intros Hall.
  assert (G : forall s : State,
             x (fst (paddleOffsets s)) = F32.of_Z 35 ->
             x (snd (paddleOffsets s)) = F32.sub (F32.of_Z (scrWidth s)) (F32.of_Z 35) ->
             x (fst (paddleOffsets (renderLoop ins s))) = F32.of_Z 35
             /\ x (snd (paddleOffsets (renderLoop ins s)))
                = F32.sub (F32.of_Z (scrWidth (renderLoop ins s))) (F32.of_Z 35)).
  { induction Hall as [|i ins Hi Hall IH]; intros s H0 H1; [split; assumption|].
    rewrite renderLoop_cons.
    destruct (frame_columns i s) as (F0 & F1 & FW).
    apply IH.
    - rewrite F0. exact H0.
    - rewrite F1, FW. unfold sizeReported in Hi.
      destruct (resized i) as [[w h]|]; [|exact H1].
      unfold to_uint, uint_mod. rewrite Z.mod_small by lia. reflexivity. }
  apply G; reflexivity.
Qed.

Lemma paddles_keep_their_columns_witness :
  Forall sizeReported [resizeTo 1024 768; idle sixteenth]
  /\ let s := renderLoop [resizeTo 1024 768; idle sixteenth] initialState in
     x (fst (paddleOffsets s)) = F32.of_Z 35
     /\ x (snd (paddleOffsets s)) = F32.sub (F32.of_Z (scrWidth s)) (F32.of_Z 35).
Proof.
  assert (H : Forall sizeReported [resizeTo 1024 768; idle sixteenth]).
  { repeat constructor; cbn; lia. }
  split; [exact H|].
  exact (paddles_keep_their_columns [resizeTo 1024 768; idle sixteenth] H).
Defined.

(** X10: in a window of width 0 every frame scores: whatever the
    position of the ball, unless it is a NaN, one of the two tests
    [ballOffset.x - ballRadius <= 0] and
    [ballOffset.x + ballRadius >= scrWidth] holds. *)
Theorem empty_window_scores (s : State) :
  scrWidth s = 0 -> is_nan (x (ballOffset s)) = false ->
  scoreEvent s <> None.
Proof.
  intros HW Hn.
  assert (H : reset s <> 0).
  { unfold reset. rewrite HW.
    change (F32.of_Z 0) with (S754_zero false).
    replace ballRadius with (S754_finite false 8388608 (-20))
      by (vm_compute; reflexivity).
    destruct (x (ballOffset s)) as [sx | sx | | sx mx ex];
      [ destruct sx; vm_compute; discriminate
      | destruct sx; vm_compute; discriminate
      | discriminate Hn
      | ].
    destruct sx.
    - (* a negative number minus 8 is negative *)
      assert (E : F32.leb (F32.sub (S754_finite true mx ex)
                             (S754_finite false 8388608 (-20)))
                          (S754_zero false) = true).
      { unfold F32.sub, F32.leb. cbn [SFsub cond_Zopp].
        set (a := fst (shl_align mx ex (Z.min ex (-20)))).
        set (b := fst (shl_align 8388608 (-20) (Z.min ex (-20)))).
        change (- Zpos a - Zpos b) with (Zneg (a + b)).
        cbn [binary_normalize].
        exact (rounded_sign _ _ true _ _
                 (binary_round_rounded F32.prec F32.emax eq_refl true (a + b) _)). }
      rewrite E. discriminate.
    - (* a positive number plus 8 is positive *)
      destruct (F32.leb _ _); [discriminate|].
      assert (E : F32.geb (F32.add (S754_finite false mx ex)
                             (S754_finite false 8388608 (-20)))
                          (S754_zero false) = true).
      { unfold F32.add, F32.geb. cbn [SFadd cond_Zopp].
        set (a := fst (shl_align mx ex (Z.min ex (-20)))).
        set (b := fst (shl_align 8388608 (-20) (Z.min ex (-20)))).
        change (Zpos a + Zpos b) with (Zpos (a + b)).
        cbn [binary_normalize].
        exact (rounded_sign _ _ false _ _
                 (binary_round_rounded F32.prec F32.emax eq_refl false (a + b) _)). }
      rewrite E. discriminate. }
  unfold scoreEvent. destruct (reset_cases s) as [E | [E | E]];
    rewrite E in *; [contradiction | discriminate | discriminate].
Qed.

Lemma empty_window_scores_witness :
  scrWidth emptyWindow = 0 /\ is_nan (x (ballOffset emptyWindow)) = false
  /\ scoreEvent emptyWindow <> None.
Proof.
  split; [reflexivity|]. split; [reflexivity|].
  apply empty_window_scores; reflexivity.
Defined.

(** X11: in every state reached from the initial state, the velocity of
    each paddle is [0], [paddleSpeed] or [-paddleSpeed]. *)
Theorem paddle_velocity_values (s : State) :
  Reachable s ->
  In (fst (paddleVelocities s)) paddleVelocityValues
  /\ In (snd (paddleVelocities s)) paddleVelocityValues.
Proof.
  intros H. destruct H as [|i s H].
  - split; left; reflexivity.
  - rewrite frame_paddleVelocities.
    destruct (processInput_paddles i s) as (_ & -> & _ & ->).
    split; apply movePaddle_velocity.
Qed.

Lemma paddle_velocity_values_witness :
  Reachable insideRightPaddle
  /\ In (fst (paddleVelocities insideRightPaddle)) paddleVelocityValues
  /\ In (snd (paddleVelocities insideRightPaddle)) paddleVelocityValues.
Proof.
  assert (H : Reachable insideRightPaddle).
  { apply renderLoop_Reachable. apply reach_init. }
  split; [exact H|]. exact (paddle_velocity_values insideRightPaddle H).
Defined.

(** *** Numbers of the format along a run *)

Lemma advance_valid (a b : float) (t : double) : F32.valid (advance a b t) = true.
Proof. apply to_float_valid. Qed.

Lemma Reachable_paddles_valid (s : State) :
  Reachable s ->
  F32.valid (y (fst (paddleOffsets s))) = true
  /\ F32.valid (y (snd (paddleOffsets s))) = true.
Proof.
  intros H. destruct H as [|i s H].
  - split; vm_compute; reflexivity.
  - destruct (frame_positions i s) as (_ & _ & -> & ->).
    split; apply advance_valid.
Qed.

(** X12: in a state reached from the initial state, a paddle whose two
    keys are both up is where it was after a frame with a finite time
    step: its velocity is 0 and the integration adds [0 * dt] exactly.
    (The position [-0] alone would become [+0].) *)
Theorem released_paddle_rests (i : Input) (s : State) :
  Reachable s -> is_finite (dt i) = true ->
  (keyW i = false -> keyS i = false ->
   y (fst (paddleOffsets s)) <> S754_zero true ->
   y (fst (paddleOffsets (frame i s))) = y (fst (paddleOffsets s)))
  /\ (keyUp i = false -> keyDown i = false ->
      y (snd (paddleOffsets s)) <> S754_zero true ->
      y (snd (paddleOffsets (frame i s))) = y (snd (paddleOffsets s))).
Proof.
  intros Hr Ht.
  destruct (Reachable_paddles_valid s Hr) as [V0 V1].
  destruct (frame_positions i s) as (_ & _ & -> & ->).
  destruct (processInput_paddles i s) as (-> & -> & -> & ->).
  split; intros -> -> Hz; cbn [movePaddle fst snd];
    apply advance_still; assumption.
Qed.

Lemma released_paddle_rests_witness :
  let i := idle sixteenth in
  let s := insideRightPaddle in
  Reachable s /\ is_finite (dt i) = true
  /\ (keyW i = false -> keyS i = false ->
      y (fst (paddleOffsets s)) <> S754_zero true ->
      y (fst (paddleOffsets (frame i s))) = y (fst (paddleOffsets s)))
  /\ (keyUp i = false -> keyDown i = false ->
      y (snd (paddleOffsets s)) <> S754_zero true ->
      y (snd (paddleOffsets (frame i s))) = y (snd (paddleOffsets s))).
Proof.
  intros i s.
  assert (H : Reachable s).
  { apply renderLoop_Reachable. apply reach_init. }
  split; [exact H|]. split; [reflexivity|].
  exact (released_paddle_rests i s H eq_refl).
Defined.

(** *** The walls *)

Lemma k_times_velocity_valid (v : float) :
  In v paddleVelocityValues -> F32.valid (F32.mul k v) = true.
Proof.
  intros [<- | [<- | [<- | []]]]; vm_compute; reflexivity.
Qed.

Lemma negate_valid (a : float) : F32.valid a = true -> F32.valid (negate a) = true.
Proof. intros H. rewrite negate_opp by exact H. apply opp_valid, H. Qed.

Lemma flipped_valid (h : Hit) (v : vec2) :
  F32.valid (y v) = true -> F32.valid (y (flipped h v)) = true.
Proof.
  intros H. destruct h; cbn [flipped flipX flipY y]; try exact H;
    apply negate_valid, H.
Qed.

(** The vertical velocity stays a number of the format. *)
Lemma frame_velocity_valid (i : Input) (s : State) :
  F32.valid (y (ballVelocity s)) = true ->
  F32.valid (y (initBallVelocity s)) = true ->
  F32.valid (y (ballVelocity (frame i s))) = true.
Proof.
  intros Hv Hi. rewrite frame_velocity.
  set (m := beforePaddles i s).
  assert (Hm : F32.valid (y (ballVelocity m)) = true).
  { unfold m, beforePaddles.
    set (w := wallCollisions (countFrame (processInput i s))).
    assert (Hw : F32.valid (y (ballVelocity w)) = true).
    { unfold w, wallCollisions.
      destruct (hitsWall _); cbn [set_ball ballVelocity flipY y].
      - apply negate_valid. destruct (countFrame_ball (processInput i s))
          as (_ & -> & _). exact Hv.
      - destruct (countFrame_ball (processInput i s)) as (_ & -> & _). exact Hv. }
    unfold scoring. destruct (negb (reset w =? 0)); [|exact Hw].
    cbn [set_ball ballVelocity y]. unfold w.
    destruct (wallCollisions_ball (countFrame (processInput i s)))
      as (_ & _ & _ & _ & _ & _ & _ & ->).
    destruct (countFrame_ball (processInput i s))
      as (_ & _ & _ & _ & _ & _ & ->). exact Hi. }
  rewrite paddleCollisions_classify.
  destruct (eligible m); [|exact Hm].
  assert (Hp : In (sel (paddleVelocities m) (candidate m)) paddleVelocityValues).
  { unfold m. destruct (beforePaddles_keeps i s) as (_ & -> & _).
    destruct (processInput_paddles i s) as (_ & E0 & _ & E1).
    unfold sel. destruct (candidate (beforePaddles i s) =? 0).
    - rewrite E0. apply movePaddle_velocity.
    - rewrite E1. apply movePaddle_velocity. }
  destruct (classify m) eqn:Ec; cbn [respond]; try exact Hm;
    unfold bounce; cbn [set_frames set_ball ballVelocity y];
    (apply SFadd_valid;
     [reflexivity
     | apply (flipped_valid _ (ballVelocity m)), Hm
     | apply k_times_velocity_valid, Hp]).
Qed.

Lemma Reachable_velocity_valid (s : State) :
  Reachable s ->
  F32.valid (y (ballVelocity s)) = true
  /\ F32.valid (y (initBallVelocity s)) = true.
Proof.
  induction 1 as [|i s H [IHv IHi]].
  - split; vm_compute; reflexivity.
  - split.
    + apply frame_velocity_valid; assumption.
    + rewrite frame_initBallVelocity. exact IHi.
Qed.

(** X13: in a frame from a reachable state that scores no point and
    detects no paddle collision, the velocity of the ball changes only at
    a wall: if the ball overlaps the floor or the ceiling when the frame
    starts, [ballVelocity.y] becomes its exact opposite and
    [ballVelocity.x] is kept; otherwise the velocity is kept whole. *)
Theorem walls_mirror_the_ball (i : Input) (s : State) :
  Reachable s -> scoreEvent s = None -> collisionInFrame i s = false ->
  ballVelocity (frame i s)
  = if hitsWall s
    then {| x := x (ballVelocity s); y := F32.opp (y (ballVelocity s)) |}
    else ballVelocity s.
Proof.
  intros Hr Hs Hc.
  destruct (Reachable_velocity_valid s Hr) as [Hv _].
  destruct (tests_read_start_position i s) as [Hwall Hreset].
  assert (H0 : reset s = 0).
  { unfold scoreEvent in Hs. destruct (reset_cases s) as [E | [E | E]];
      rewrite E in Hs; [exact E | discriminate | discriminate]. }
  rewrite frame_velocity.
  assert (Hm : paddleCollisions (beforePaddles i s) = beforePaddles i s).
  { rewrite paddleCollisions_classify.
    unfold collisionInFrame, collides in Hc.
    destruct (eligible (beforePaddles i s)); [|reflexivity].
    destruct (classify (beforePaddles i s)); try discriminate. reflexivity. }
  rewrite Hm. unfold beforePaddles, scoring.
  rewrite Hreset, H0. cbn [Z.eqb negb].
  unfold wallCollisions. rewrite Hwall.
  destruct (countFrame_ball (processInput i s)) as (_ & Hcv & _).
  destruct (hitsWall s).
  - cbn [set_ball ballVelocity]. unfold flipY. rewrite Hcv.
    cbn [processInput set_paddles ballVelocity].
    rewrite negate_opp by exact Hv. reflexivity.
  - rewrite Hcv. reflexivity.
Qed.

Lemma walls_mirror_the_ball_witness :
  let i := idle sixteenth in
  let s := untouched 32 in
  Reachable s /\ scoreEvent s = None /\ collisionInFrame i s = false
  /\ hitsWall s = true
  /\ ballVelocity (frame i s)
     = {| x := x (ballVelocity s); y := F32.opp (y (ballVelocity s)) |}.
Proof.
  intros i s.
  assert (H : Reachable s) by (apply renderLoop_Reachable, reach_init).
  assert (Hs : scoreEvent s = None) by (vm_compute; reflexivity).
  assert (Hc : collisionInFrame i s = false) by (vm_compute; reflexivity).
  assert (Hw : hitsWall s = true) by (vm_compute; reflexivity).
  split; [exact H|]. split; [exact Hs|]. split; [exact Hc|]. split; [exact Hw|].
  pose proof (walls_mirror_the_ball i s H Hs Hc) as W.
  rewrite Hw in W. exact W.
Defined.

(** *** A ball that is not a number *)

Lemma advance_nan (v : float) (t : double) : advance S754_nan v t = S754_nan.
Proof. reflexivity. Qed.

Lemma nan_ball_frame (i : Input) (s : State) :
  is_nan (x (ballOffset s)) = true ->
  scoreEvent s = None
  /\ collisionInFrame i s = false
  /\ is_nan (x (ballOffset (frame i s))) = true.
Proof.
  intros Hn.
  destruct (x (ballOffset s)) as [sx | sx | | sx mx ex] eqn:Ex; try discriminate.
  assert (Hge : forall a : float, F32.geb S754_nan a = false).
  { intros a. unfold F32.geb, SFleb. destruct a; reflexivity. }
  assert (Hgt : forall a : float, F32.gtb S754_nan a = false).
  { intros a. unfold F32.gtb, SFltb. destruct a; reflexivity. }
  assert (H0 : reset s = 0).
  { unfold reset. rewrite Ex.
    change (F32.add S754_nan ballRadius) with S754_nan. rewrite Hge.
    reflexivity. }
  destruct (tests_read_start_position i s) as [_ Hreset].
  assert (Hb : ballOffset (beforePaddles i s) = ballOffset s).
  { unfold beforePaddles, scoring. rewrite Hreset, H0. cbn [Z.eqb negb].
    destruct (wallCollisions_ball (countFrame (processInput i s))) as (-> & _).
    destruct (countFrame_ball (processInput i s)) as (-> & _). reflexivity. }
  assert (Hc : classify (beforePaddles i s) = NoHit).
  { unfold classify, inReach, distance, candidate. rewrite Hb, Ex, Hgt.
    reflexivity. }
  split; [unfold scoreEvent; rewrite H0; reflexivity|]. split.
  - unfold collisionInFrame, collides. rewrite Hc. apply andb_false_r.
  - destruct (frame_positions i s) as (_ & -> & _). cbn [x].
    rewrite Hb, Ex. reflexivity.
Qed.

(** X14: once [ballOffset.x] is a NaN it stays one: over any run from
    such a state no frame scores a point, no frame detects a paddle
    collision, and [ballOffset.x] is a NaN at the end. *)
Theorem nan_ball_is_lost (ins : list Input) :
  forall s : State,
    is_nan (x (ballOffset s)) = true ->
    is_nan (x (ballOffset (renderLoop ins s))) = true
    /\ Forall (eq None) (scoreEvents ins s)
    /\ quiet ins s = true.
Proof.
  induction ins as [|i ins IH]; intros s Hn.
  - repeat split; [exact Hn | constructor].
  - destruct (nan_ball_frame i s Hn) as (Hs & Hc & Hn').
    destruct (IH (frame i s) Hn') as (IH1 & IH2 & IH3).
    rewrite renderLoop_cons, quiet_cons. cbn [scoreEvents].
    split; [exact IH1|]. split.
    + constructor; [symmetry; exact Hs | exact IH2].
    + rewrite Hc, IH3. reflexivity.
Qed.

Lemma nan_ball_is_lost_witness :
  let s := frame lostTime initialState in
  let ins := repeat (idle sixteenth) 3 in
  is_nan (x (ballOffset s)) = true
  /\ is_nan (x (ballOffset (renderLoop ins s))) = true
  /\ Forall (eq None) (scoreEvents ins s)
  /\ quiet ins s = true.
Proof.
  intros s ins.
  assert (H : is_nan (x (ballOffset s)) = true) by (vm_compute; reflexivity).
  split; [exact H|]. exact (nan_ball_is_lost ins s H).
Defined.

(** *** The shader functions *)

Lemma unit_tt (u : unit) : u = tt.
Proof. destruct u. reflexivity. Qed.

Lemma run_seq {A B : Type} (w : World) (p : Prog A) (f : A -> Prog B) :
  forall past : list Event,
    run w (seq p f) past
    = run w (f (fst (run w p past))) (snd (run w p past)).
Proof.
  induction p as [a | R c k IH]; intros past; [reflexivity|].
  cbn [seq run]. apply IH.
Qed.

Lemma run_call {R : Type} (w : World) (c : Call R) (past : list Event) :
  run w (call c) past = (w R past c, past ++ [event c (w R past c)]).
Proof. reflexivity. Qed.

Ltac run_step :=
  first [ rewrite run_seq | rewrite run_call ]; cbn [fst snd].

(** What [readFile] and [genShader] add to the calls made so far. *)
Lemma run_readFile (w : World) (filename : string) (past : list Event) :
  exists more,
    snd (run w (readFile filename) past) = past ++ more
    /\ filter isCompile more = [] /\ filter isDelete more = []
    /\ fst (run w (readFile filename) past)
       = match w _ past (OpenFile filename) with
         | Some contents => contents
         | None => EmptyString
         end.
Proof.
  unfold readFile. repeat run_step.
  destruct (w _ past (OpenFile filename)) as [contents|].
  - cbn [run]. repeat run_step. cbn [run fst snd].
    rewrite <- app_assoc. eexists. split; [reflexivity|]. repeat split.
  - repeat run_step. cbn [run fst snd].
    rewrite <- !app_assoc. eexists. split; [reflexivity|]. repeat split.
Qed.

Lemma run_genShader (w : World) (filepath : string) (type : ShaderType)
    (past : list Event) :
  let r := run w (genShader filepath type) past in
  let source := match w _ past (OpenFile filepath) with
                | Some contents => contents
                | None => EmptyString
                end in
  exists more id status,
    snd r = past ++ more
    /\ filter isDelete more = []
    /\ List.length (filter isCompile more) = 1%nat
    /\ In (event (glCreateShader type) id) more
    /\ In (event (glShaderSource (to_uint (to_int id)) source) tt) more
    /\ In (event (glCompileShader (to_uint (to_int id))) tt) more
    /\ In (event (glGetShaderiv (to_uint (to_int id)) GL_COMPILE_STATUS) status) more
    /\ fst r = if status =? 0 then -1 else to_int id.
Proof.
  intros r source. unfold r, genShader.
  destruct (run_readFile w filepath past) as (more0 & E0 & C0 & D0 & S0).
  fold source in S0.
  run_step. rewrite E0, S0.
  do 8 run_step.
  match goal with
  | |- context [w Z ?p (glCreateShader type)] =>
      set (id := w Z p (glCreateShader type))
  end.
  match goal with
  | |- context [w unit ?p (glShaderSource ?a ?b)] =>
      rewrite (unit_tt (w unit p (glShaderSource a b)))
  end.
  match goal with
  | |- context [w unit ?p (glCompileShader ?a)] =>
      rewrite (unit_tt (w unit p (glCompileShader a)))
  end.
  match goal with
  | |- context [w Z ?p (glGetShaderiv ?a ?b)] =>
      set (status := w Z p (glGetShaderiv a b))
  end.
  destruct (status =? 0) eqn:Es.
  - repeat run_step. cbn [run fst snd]. rewrite <- !app_assoc.
    eexists. exists id, status. split; [reflexivity|].
    rewrite !filter_app, C0, D0, Es.
    cbn [filter isCompile isDelete List.app List.length].
    repeat split; apply in_or_app; right; cbn [List.app In]; auto 8.
  - cbn [run fst snd]. rewrite <- !app_assoc.
    eexists. exists id, status. split; [reflexivity|].
    rewrite !filter_app, C0, D0, Es.
    cbn [filter isCompile isDelete List.app List.length].
    repeat split; apply in_or_app; right; cbn [List.app In]; auto 8.
Qed.



(** X16: whatever the environment answers, [genShaderProgram] compiles
    two shaders, the second one also when the first has failed; and it
    either returns -1 without having deleted a shader (nor the program,
    which it never deletes), or returns the name that [glCreateProgram]
    gave, as an [int], after having deleted two shaders. *)
Theorem shader_program_outcomes (w : World)
    (vertexShaderPath fragmentShaderPath : string) :
  let r := run w (genShaderProgram vertexShaderPath fragmentShaderPath) [] in
  List.length (filter isCompile (snd r)) = 2%nat
  /\ ((fst r = -1 /\ filter isDelete (snd r) = [])
      \/ exists program,
           In (event glCreateProgram program) (snd r)
           /\ fst r = to_int program
           /\ List.length (filter isDelete (snd r)) = 2%nat).
Proof.
  intros r. unfold r, genShaderProgram.
  do 3 run_step. rewrite !run_call. cbn [fst snd].
  set (program := w Z [] glCreateProgram).
  set (p0 := [] ++ [event glCreateProgram program]).
  destruct (run_genShader w vertexShaderPath GL_VERTEX_SHADER p0)
    as (more1 & id1 & st1 & E1 & D1 & C1 & _ & _ & _ & _ & _).
  cbn zeta in E1. rewrite E1.
  generalize (fst (run w (genShader vertexShaderPath GL_VERTEX_SHADER) p0)).
  intros vertexShader.
  destruct (run_genShader w fragmentShaderPath GL_FRAGMENT_SHADER (p0 ++ more1))
    as (more2 & id2 & st2 & E2 & D2 & C2 & _ & _ & _ & _ & _).
  cbn zeta in E2. rewrite E2.
  generalize (fst (run w (genShader fragmentShaderPath GL_FRAGMENT_SHADER)
                     (p0 ++ more1))).
  intros fragmentShader.
  assert (F : forall tail : list Event,
            filter isCompile tail = [] ->
            List.length (filter isCompile (((p0 ++ more1) ++ more2) ++ tail)) = 2%nat).
  { intros tail Ht. rewrite !filter_app, Ht, !length_app, C1, C2. reflexivity. }
  assert (G : forall tail : list Event,
            filter isDelete (((p0 ++ more1) ++ more2) ++ tail) = filter isDelete tail).
  { intros tail. rewrite !filter_app, D1, D2. reflexivity. }
  destruct ((vertexShader =? -1) || (fragmentShader =? -1)).
  - cbn [run fst snd]. split.
    + rewrite <- (app_nil_r ((p0 ++ more1) ++ more2)). apply F. reflexivity.
    + left. split; [reflexivity|].
      rewrite <- (app_nil_r ((p0 ++ more1) ++ more2)), G. reflexivity.
  - do 7 run_step.
    match goal with
    | |- context [if ?b then _ else _] => destruct b
    end.
    + repeat run_step. cbn [run fst snd]. rewrite <- !(app_assoc ((p0 ++ more1) ++ more2)).
      split; [apply F; reflexivity|].
      left. split; [reflexivity|]. rewrite G. reflexivity.
    + repeat run_step. cbn [run fst snd]. rewrite <- !(app_assoc ((p0 ++ more1) ++ more2)).
      split; [apply F; reflexivity|].
      right. exists program. split; [|split].
      * apply in_or_app. left. apply in_or_app. left. apply in_or_app. left.
        left. reflexivity.
      * reflexivity.
      * rewrite G. reflexivity.
Qed.
